(** * Merkle lists and their iterators (src/lib/provable-types/merkle-list.ts)

    A shallow embedding of the prover-side execution of [MerkleList] and
    [MerkleListIterator]: field elements are concrete, [Provable.witness]
    runs its callback, [Provable.if] is a conditional on concrete booleans
    and a failed [assertEquals] aborts the operation.

    The embedding comes in two layers.
    - Modules [MerkleListIterator] and [MerkleList] give every method as a
      function on the object's own state, the contents of its
      [Unconstrained] cells written in place of the cells.
    - Module [Heap] keeps the [Unconstrained] cells in a store and the
      objects hold references to them, so that two objects holding the
      same cell are visible as such. *)

From Stdlib Require Import Ascii HexString.
From stdpp Require Import base numbers option list strings gmap.

(** ** Field elements (src/lib/core.ts) *)

(** The pasta base field; an element is kept as its canonical representative. *)
Definition Field : Type := Z.

Definition Field_ORDER : Z :=
  (2 ^ 254 + 0x224698fc094cf91b992d30ed00000001)%Z.

(** [Field(n)] *)
Definition mkField (n : Z) : Field := (n mod Field_ORDER)%Z.

(** [x.add(y)] *)
Definition Field_add (x y : Field) : Field := ((x + y) mod Field_ORDER)%Z.

(** [x.equals(y)] on concrete field elements *)
Definition Field_equals (x y : Field) : bool := Z.eqb x y.

(** ** Outcome of an operation that emits assertions *)

Inductive result (A : Type) : Type :=
  | Ok (a : A)
  | ConstraintViolation.
Arguments Ok {A} a.
Arguments ConstraintViolation {A}.

#[global] Instance result_ret : MRet result := @Ok.
#[global] Instance result_bind : MBind result := λ A B f m,
  match m with
  | Ok a => f a
  | ConstraintViolation => ConstraintViolation
  end.
#[global] Instance result_fmap : FMap result := λ A B f m,
  match m with
  | Ok a => Ok (f a)
  | ConstraintViolation => ConstraintViolation
  end.

(** [x.assertEquals(y)] *)
Definition assertEquals (x y : Field) : result unit :=
  if Field_equals x y then Ok () else ConstraintViolation.

Definition succeeds {A} (r : result A) : bool :=
  match r with Ok _ => true | ConstraintViolation => false end.

(** ** Common base types *)

(** [const emptyHash = Field(0)] *)
Definition emptyHash : Field := mkField 0.

(** [type WithHash<T> = { previousHash: Field; element: T }] *)
Record WithHash (T : Type) : Type := mkWithHash {
  previousHash : Field;
  element : T;
}.
Arguments mkWithHash {T} _ _.
Arguments previousHash {T} _.
Arguments element {T} _.

(** [type MerkleListBase<T> = { hash: Field; data: Unconstrained<WithHash<T>[]> }],
    the contents of the [data] cell in place of the cell. *)
Module Base.
Record MerkleListBase (T : Type) : Type := mkBase {
  hash : Field;
  data : list (WithHash T);
}.
Arguments mkBase {T} _ _.
Arguments hash {T} _.
Arguments data {T} _.
End Base.
Export Base.

(** Modelled from the spec: the element capability [ProvableHashable<T>]
    (hash.js, outside the sources at hand). [encode] is the canonical
    field sequence [packToFields(provable.toInput(value))] and [empty]
    the canonical placeholder [provable.empty()]. *)
Record ProvableHashable (T : Type) : Type := mkProvable {
  encode : T → list Field;
  empty : T;
}.
Arguments mkProvable {T} _ _.
Arguments encode {T} _ _.
Arguments empty {T} _.

(** Modelled from the spec: the provable of a single field value
    ([Field] used as element type): it encodes to itself and its
    placeholder is [Field(0)]. *)
Definition FieldProvable : ProvableHashable Field :=
  {| encode := λ x, [x]; empty := mkField 0 |}.

(** The static members that [create] binds on the class it returns:
    [_innerProvable], [_nextHash], [_emptyHash]. Both [MerkleList.create]
    and [MerkleListIterator.create] bind these three. *)
Record Statics (T : Type) : Type := mkStatics {
  _innerProvable : ProvableHashable T;
  _nextHash : Field → T → Field;
  _emptyHash : Field;
}.
Arguments mkStatics {T} _ _ _.
Arguments _innerProvable {T} _.
Arguments _nextHash {T} _ _ _.
Arguments _emptyHash {T} _.

(** ** Hash helpers *)

Section HashHelpers.
(** [Poseidon.hashWithPrefix] (hash.js) is not among the sources: it is
    taken as a parameter. *)
Variable hashWithPrefix : string → list Field → Field.

Definition genericHash {T} (provable : ProvableHashable T)
    (prefix : string) (value : T) : Field :=
  let packed := encode provable value in
  hashWithPrefix prefix packed.

Definition merkleListHash {T} (provable : ProvableHashable T)
    (prefix : string) : Field → T → Field :=
  λ hash value,
    let packed := encode provable value in
    hashWithPrefix prefix (hash :: packed).
End HashHelpers.

(** [withHashes]: the loop runs [i = n-1, ..., 0], so it meets the
    elements in reverse order; writing [arrayWithHashes[i]] for
    decreasing [i] fills the array from the right, which puts each new
    node in front of those already written. *)
Definition withHashes_step {T} (nextHash : Field → T → Field)
    (acc : list (WithHash T) * Field) (x : T) : list (WithHash T) * Field :=
  let '(arrayWithHashes, currentHash) := acc in
  (mkWithHash currentHash x :: arrayWithHashes, nextHash currentHash x).

Definition withHashes {T} (data : list T) (nextHash : Field → T → Field)
    (emptyHash : Field) : MerkleListBase T :=
  let '(arrayWithHashes, currentHash) :=
    fold_left (withHashes_step nextHash) (rev data) ([], emptyHash) in
  {| data := arrayWithHashes; hash := currentHash |}.

(** ** The iterator *)

Module MerkleListIterator.

(** [MerkleListIteratorBase<T>]; [data] and [currentIndex] are the
    contents of the two [Unconstrained] cells. *)
Record MerkleListIteratorBase (T : Type) : Type := mk {
  hash : Field;
  data : list (WithHash T);
  currentHash : Field;
  currentIndex : nat;
}.
Arguments mk {T} _ _ _ _.
Arguments hash {T} _.
Arguments data {T} _.
Arguments currentHash {T} _.
Arguments currentIndex {T} _.

(** [static create(type, nextHash = merkleListHash(type), emptyHash_ = emptyHash)].
    A caller that leaves a parameter out passes its default expression. *)
Definition create {T} (type : ProvableHashable T)
    (nextHash : Field → T → Field) (emptyHash_ : Field) : Statics T :=
  {| _innerProvable := type; _nextHash := nextHash; _emptyHash := emptyHash_ |}.

(** [static createFromList(merkleList)]: two arguments are passed to
    [create], so its third parameter takes the default [emptyHash]. *)
Definition createFromList {T} (merkleList : Statics T) : Statics T :=
  create (_innerProvable merkleList) (_nextHash merkleList) emptyHash.

Section Methods.
Context {T : Type} (C : Statics T).

(** [static startIterating({ data, hash })] *)
Definition startIterating (l : MerkleListBase T) : MerkleListIteratorBase T :=
  {| data := Base.data l;
     hash := Base.hash l;
     currentHash := Base.hash l;
     currentIndex := 0 |}.

(** [static from(array)] *)
Definition from (array : list T) : MerkleListIteratorBase T :=
  startIterating (withHashes array (_nextHash C) (_emptyHash C)).

Definition assertAtStart (it : MerkleListIteratorBase T) : result unit :=
  assertEquals (currentHash it) (hash it).

Definition isAtEnd (it : MerkleListIteratorBase T) : bool :=
  Field_equals (currentHash it) (_emptyHash C).

Definition jumpToEnd (it : MerkleListIteratorBase T) : MerkleListIteratorBase T :=
  {| hash := hash it;
     data := data it;
     currentIndex := length (data it);
     currentHash := _emptyHash C |}.

Definition jumpToEndIf (condition : bool) (it : MerkleListIteratorBase T)
    : MerkleListIteratorBase T :=
  {| hash := hash it;
     data := data it;
     currentIndex := if condition then length (data it) else currentIndex it;
     currentHash := if condition then _emptyHash C else currentHash it |}.

(** The node witnessed by [next]: [data[currentIndex] ?? dummy]. *)
Definition nextWitness (it : MerkleListIteratorBase T) : WithHash T :=
  default
    {| previousHash := _emptyHash C; element := empty (_innerProvable C) |}
    (data it !! currentIndex it).

Definition next (it : MerkleListIteratorBase T)
    : result (T * MerkleListIteratorBase T) :=
  let w := nextWitness it in
  let isDummy := isAtEnd it in
  let emptyHash := _emptyHash C in
  let correctHash := _nextHash C (previousHash w) (element w) in
  let requiredHash := if isDummy then emptyHash else correctHash in
  _ ← assertEquals (currentHash it) requiredHash;
  let it' :=
    {| hash := hash it;
       data := data it;
       currentIndex := Nat.min (currentIndex it + 1) (length (data it));
       currentHash := if isDummy then emptyHash else previousHash w |} in
  mret (if isDummy then empty (_innerProvable C) else element w, it').

(** [clone()]: a new object over copies of both cells. *)
Definition clone (it : MerkleListIteratorBase T) : MerkleListIteratorBase T :=
  {| data := data it;
     hash := hash it;
     currentHash := currentHash it;
     currentIndex := currentIndex it |}.

(** [n] successive calls of [next], the values in call order. *)
Fixpoint next_n (n : nat) (it : MerkleListIteratorBase T)
    : result (list T * MerkleListIteratorBase T) :=
  match n with
  | O => mret ([], it)
  | S n' =>
      '(v, it1) ← next it;
      '(vs, it2) ← next_n n' it1;
      mret (v :: vs, it2)
  end.

(** [static empty()] *)
Definition empty : MerkleListIteratorBase T := from [].
End Methods.

End MerkleListIterator.

(** ** The list *)

Module MerkleList.

(** [static create(type, nextHash = merkleListHash(type), emptyHash_ = emptyHash)] *)
Definition create {T} (type : ProvableHashable T)
    (nextHash : Field → T → Field) (emptyHash_ : Field) : Statics T :=
  {| _innerProvable := type; _nextHash := nextHash; _emptyHash := emptyHash_ |}.

Section Methods.
Context {T : Type} (C : Statics T).

(** [static from(array)] *)
Definition from (array : list T) : MerkleListBase T :=
  let l := withHashes array (_nextHash C) (_emptyHash C) in
  {| data := data l; hash := hash l |}.

Definition isEmpty (l : MerkleListBase T) : bool :=
  Field_equals (hash l) (_emptyHash C).

Definition push (l : MerkleListBase T) (element : T) : MerkleListBase T :=
  let previousHash := hash l in
  {| hash := _nextHash C previousHash element;
     data := mkWithHash previousHash element :: data l |}.

Definition pushIf (l : MerkleListBase T) (condition : bool) (element : T)
    : MerkleListBase T :=
  let previousHash := hash l in
  {| hash := if condition
             then _nextHash C previousHash element
             else previousHash;
     data := if condition
             then mkWithHash previousHash element :: data l
             else data l |}.

(** [popWitness()]: the head of [data], or the dummy node when [data]
    is exhausted; the rest is written back to the cell. *)
Definition popWitness (l : MerkleListBase T) : WithHash T * MerkleListBase T :=
  match data l with
  | value :: data' => (value, {| hash := hash l; data := data' |})
  | [] =>
      ({| previousHash := _emptyHash C;
          element := empty (_innerProvable C) |},
       {| hash := hash l; data := [] |})
  end.

(** [popExn()] from the witnessed node [w] on: the assertion it emits
    and the update of [hash]. *)
Definition popExn_on (w : WithHash T) (l1 : MerkleListBase T)
    : result (T * MerkleListBase T) :=
  let currentHash := _nextHash C (previousHash w) (element w) in
  _ ← assertEquals (hash l1) currentHash;
  mret (element w, {| hash := previousHash w; data := data l1 |}).

Definition popExn (l : MerkleListBase T) : result (T * MerkleListBase T) :=
  let '(w, l1) := popWitness l in
  popExn_on w l1.

Definition pop (l : MerkleListBase T) : result (T * MerkleListBase T) :=
  let '(w, l1) := popWitness l in
  let isEmpty := isEmpty l1 in
  let emptyHash := _emptyHash C in
  let currentHash := _nextHash C (previousHash w) (element w) in
  let currentHash := if isEmpty then emptyHash else currentHash in
  _ ← assertEquals (hash l1) currentHash;
  let provable := _innerProvable C in
  mret (if isEmpty then empty provable else element w,
        {| hash := if isEmpty then emptyHash else previousHash w;
           data := data l1 |}).

Definition popIf (l : MerkleListBase T) (condition : bool)
    : result (T * MerkleListBase T) :=
  let originalHash := hash l in
  '(element, l1) ← pop l;
  let node := {| previousHash := hash l1; element := element |} in
  mret (element,
        {| data := if condition then data l1 else node :: data l1;
           hash := if condition then hash l1 else originalHash |}).

(** [clone()]: a new object over a copy of the [data] cell. *)
Definition clone (l : MerkleListBase T) : MerkleListBase T :=
  {| hash := hash l; data := data l |}.

(** [startIterating()]: the iterator type is derived from this list's
    type with [createFromList]; the iterator starts on this list's
    [{ data, hash }]. *)
Definition iteratorType : Statics T := MerkleListIterator.createFromList C.

Definition startIterating (l : MerkleListBase T)
    : MerkleListIterator.MerkleListIteratorBase T :=
  MerkleListIterator.startIterating l.

(** [n] successive calls of [pop], the values in call order. *)
Fixpoint pop_n (n : nat) (l : MerkleListBase T)
    : result (list T * MerkleListBase T) :=
  match n with
  | O => mret ([], l)
  | S n' =>
      '(v, l1) ← pop l;
      '(vs, l2) ← pop_n n' l1;
      mret (v :: vs, l2)
  end.

(** [static empty()] *)
Definition empty : MerkleListBase T :=
  {| hash := _emptyHash C; data := [] |}.
End Methods.

End MerkleList.

(** ** Objects over shared storage *)

Module Heap.

(** Modelled from the spec: the off-proof storage [Unconstrained<T>]
    (circuit-value.js, outside the sources at hand), a container that is
    read with [get], overwritten in place with [set], [setTo] and
    [updateAsProver], and created by [Unconstrained.from] and
    [Unconstrained.witness]. A store maps the references of the living
    containers to their contents: [nodes] for the [data] containers,
    [numbers] for the [currentIndex] containers. *)
Record store (T : Type) : Type := mkStore {
  nodes : gmap nat (list (WithHash T));
  numbers : gmap nat nat;
}.
Arguments mkStore {T} _ _.
Arguments nodes {T} _.
Arguments numbers {T} _.

Section Cells.
Context {T : Type}.

(** No container yet. *)
Definition empty_store : store T := {| nodes := ∅; numbers := ∅ |}.

Definition get_nodes (σ : store T) (r : nat) : list (WithHash T) :=
  default [] (nodes σ !! r).

Definition set_nodes (σ : store T) (r : nat) (v : list (WithHash T)) : store T :=
  {| nodes := <[r := v]> (nodes σ); numbers := numbers σ |}.

Definition new_nodes (σ : store T) (v : list (WithHash T)) : store T * nat :=
  let r := fresh (dom (nodes σ)) in (set_nodes σ r v, r).

Definition get_number (σ : store T) (r : nat) : nat :=
  default 0 (numbers σ !! r).

Definition set_number (σ : store T) (r : nat) (v : nat) : store T :=
  {| nodes := nodes σ; numbers := <[r := v]> (numbers σ) |}.

Definition new_number (σ : store T) (v : nat) : store T * nat :=
  let r := fresh (dom (numbers σ)) in (set_number σ r v, r).
End Cells.

(** A [MerkleList] object: its [hash] and the reference in its [data] field. *)
Module ListObj.
Record t : Type := mk { hash : Field; data : nat }.
End ListObj.

(** A [MerkleListIterator] object. *)
Module IteratorObj.
Record t : Type := mk {
  hash : Field;
  data : nat;
  currentHash : Field;
  currentIndex : nat;
}.
End IteratorObj.

Section Objects.
Context {T : Type}.

(** What the methods of an object read: its fields, the containers
    dereferenced. *)
Definition list_view (σ : store T) (o : ListObj.t) : MerkleListBase T :=
  {| hash := ListObj.hash o; data := get_nodes σ (ListObj.data o) |}.

Definition iterator_view (σ : store T) (it : IteratorObj.t)
    : MerkleListIterator.MerkleListIteratorBase T :=
  {| MerkleListIterator.hash := IteratorObj.hash it;
     MerkleListIterator.data := get_nodes σ (IteratorObj.data it);
     MerkleListIterator.currentHash := IteratorObj.currentHash it;
     MerkleListIterator.currentIndex := get_number σ (IteratorObj.currentIndex it) |}.

(** A list method assigns [this.hash] and writes into the container
    that [this.data] refers to. *)
Definition list_write (σ : store T) (o : ListObj.t) (b : MerkleListBase T)
    : store T * ListObj.t :=
  (set_nodes σ (ListObj.data o) (data b),
   {| ListObj.hash := hash b; ListObj.data := ListObj.data o |}).

(** An iterator method assigns [this.currentHash] and writes into the
    container that [this.currentIndex] refers to; [hash] and [data]
    are read only. *)
Definition iterator_write (σ : store T) (it : IteratorObj.t)
    (b : MerkleListIterator.MerkleListIteratorBase T) : store T * IteratorObj.t :=
  (set_number σ (IteratorObj.currentIndex it) (MerkleListIterator.currentIndex b),
   {| IteratorObj.hash := IteratorObj.hash it;
      IteratorObj.data := IteratorObj.data it;
      IteratorObj.currentHash := MerkleListIterator.currentHash b;
      IteratorObj.currentIndex := IteratorObj.currentIndex it |}).

Section Methods.
Context (C : Statics T).

(** [MerkleList.empty()]: [Unconstrained.from([])] *)
Definition empty (σ : store T) : store T * ListObj.t :=
  let b := MerkleList.empty C in
  let '(σ', r) := new_nodes σ (data b) in
  (σ', {| ListObj.hash := hash b; ListObj.data := r |}).

(** [MerkleList.from(array)]: [Unconstrained.witness(...)] *)
Definition from (σ : store T) (array : list T) : store T * ListObj.t :=
  let b := MerkleList.from C array in
  let '(σ', r) := new_nodes σ (data b) in
  (σ', {| ListObj.hash := hash b; ListObj.data := r |}).

Definition push (σ : store T) (o : ListObj.t) (element : T)
    : store T * ListObj.t :=
  list_write σ o (MerkleList.push C (list_view σ o) element).

Definition pushIf (σ : store T) (o : ListObj.t) (condition : bool)
    (element : T) : store T * ListObj.t :=
  list_write σ o (MerkleList.pushIf C (list_view σ o) condition element).

Definition popExn (σ : store T) (o : ListObj.t)
    : result (T * (store T * ListObj.t)) :=
  '(v, b) ← MerkleList.popExn C (list_view σ o);
  mret (v, list_write σ o b).

Definition pop (σ : store T) (o : ListObj.t)
    : result (T * (store T * ListObj.t)) :=
  '(v, b) ← MerkleList.pop C (list_view σ o);
  mret (v, list_write σ o b).

Definition popIf (σ : store T) (o : ListObj.t) (condition : bool)
    : result (T * (store T * ListObj.t)) :=
  '(v, b) ← MerkleList.popIf C (list_view σ o) condition;
  mret (v, list_write σ o b).

(** [clone()]: [Unconstrained.witness(() => [...this.data.get()])]
    makes a new container; the new object refers to it. *)
Definition clone (σ : store T) (o : ListObj.t) : store T * ListObj.t :=
  let '(σ', r) := new_nodes σ (get_nodes σ (ListObj.data o)) in
  (σ', {| ListObj.hash := ListObj.hash o; ListObj.data := r |}).

(** [MerkleListIterator.startIterating({ data, hash })]: the new
    object is given the reference [data] itself; only
    [currentIndex] is a new container. *)
Definition iterator_startIterating (σ : store T) (data : nat) (hash : Field)
    : store T * IteratorObj.t :=
  let '(σ', i) := new_number σ 0%nat in
  (σ', {| IteratorObj.data := data;
          IteratorObj.hash := hash;
          IteratorObj.currentHash := hash;
          IteratorObj.currentIndex := i |}).

(** [list.startIterating()] *)
Definition startIterating (σ : store T) (o : ListObj.t)
    : store T * IteratorObj.t :=
  iterator_startIterating σ (ListObj.data o) (ListObj.hash o).

Definition next (σ : store T) (it : IteratorObj.t)
    : result (T * (store T * IteratorObj.t)) :=
  '(v, b) ← MerkleListIterator.next C (iterator_view σ it);
  mret (v, iterator_write σ it b).

Definition jumpToEnd (σ : store T) (it : IteratorObj.t)
    : store T * IteratorObj.t :=
  iterator_write σ it (MerkleListIterator.jumpToEnd C (iterator_view σ it)).

Definition jumpToEndIf (σ : store T) (it : IteratorObj.t) (condition : bool)
    : store T * IteratorObj.t :=
  iterator_write σ it
    (MerkleListIterator.jumpToEndIf C condition (iterator_view σ it)).

(** The iterator's [clone()]: new containers for [data] and
    [currentIndex]. *)
Definition iterator_clone (σ : store T) (it : IteratorObj.t)
    : store T * IteratorObj.t :=
  let '(σ1, r) := new_nodes σ (get_nodes σ (IteratorObj.data it)) in
  let '(σ2, i) := new_number σ1 (get_number σ (IteratorObj.currentIndex it)) in
  (σ2, {| IteratorObj.data := r;
          IteratorObj.hash := IteratorObj.hash it;
          IteratorObj.currentHash := IteratorObj.currentHash it;
          IteratorObj.currentIndex := i |}).

(** Calls on one list object, and a run of them in sequence. *)
Inductive list_call : Type :=
  | Push (element : T)
  | PushIf (condition : bool) (element : T)
  | Pop
  | PopExn
  | PopIf (condition : bool).

Definition list_step (s : store T * ListObj.t) (c : list_call)
    : result (store T * ListObj.t) :=
  let '(σ, o) := s in
  match c with
  | Push e => mret (push σ o e)
  | PushIf b e => mret (pushIf σ o b e)
  | Pop => snd <$> pop σ o
  | PopExn => snd <$> popExn σ o
  | PopIf b => snd <$> popIf σ o b
  end.

Fixpoint list_run (s : store T * ListObj.t) (cs : list list_call)
    : result (store T * ListObj.t) :=
  match cs with
  | [] => mret s
  | c :: cs' => s' ← list_step s c; list_run s' cs'
  end.

(** Calls on one iterator object. *)
Inductive iterator_call : Type :=
  | Next
  | JumpToEnd
  | JumpToEndIf (condition : bool).

Definition iterator_step (s : store T * IteratorObj.t) (c : iterator_call)
    : result (store T * IteratorObj.t) :=
  let '(σ, it) := s in
  match c with
  | Next => snd <$> next σ it
  | JumpToEnd => mret (jumpToEnd σ it)
  | JumpToEndIf b => mret (jumpToEndIf σ it b)
  end.

Fixpoint iterator_run (s : store T * IteratorObj.t) (cs : list iterator_call)
    : result (store T * IteratorObj.t) :=
  match cs with
  | [] => mret s
  | c :: cs' => s' ← iterator_step s c; iterator_run s' cs'
  end.
End Methods.
End Objects.

End Heap.

(** ** Predicates on lists and list types *)

Section Chain.
Context {T : Type} (C : Statics T).

(** The commitment of a node sequence: [nextHash] folded from the right,
    starting from the empty sentinel. *)
Definition chain (d : list (WithHash T)) : Field :=
  foldr (λ node h, _nextHash C h (element node)) (_emptyHash C) d.

(** Every node stores the commitment of the nodes after it. *)
Fixpoint linked (d : list (WithHash T)) : Prop :=
  match d with
  | [] => True
  | node :: d' => previousHash node = chain d' ∧ linked d'
  end.

(** The chain invariant of a list. *)
Definition chained (l : MerkleListBase T) : Prop :=
  hash l = chain (data l) ∧ linked (data l).

(** No node of [d] hashes onto the empty sentinel. *)
Definition no_sentinel_collision (d : list (WithHash T)) : bool :=
  forallb (λ node,
    negb (Field_equals (_nextHash C (previousHash node) (element node))
                       (_emptyHash C))) d.

(** The empty sentinel is outside the image of [nextHash]. *)
Definition sentinel_free : Prop :=
  ∀ h x, _nextHash C h x ≠ _emptyHash C.

(** The commitment is either the sentinel or the chain of the record:
    [pop] keeps this and never fails under it. *)
Definition poppable (l : MerkleListBase T) : Prop :=
  hash l = _emptyHash C ∨ chained l.

(** The iterator [it] stands where the list [l] stands: same commitment
    of what remains, same remaining nodes. *)
Definition at_same_place (it : MerkleListIterator.MerkleListIteratorBase T)
    (l : MerkleListBase T) : Prop :=
  MerkleListIterator.currentHash it = hash l ∧
  drop (MerkleListIterator.currentIndex it) (MerkleListIterator.data it) = data l.

(** The outcomes of a call on the iterator and of a call on the list
    agree: both fail, or both return the same value and arrive at the
    same place. *)
Definition agree {A}
    (r1 : result (A * MerkleListIterator.MerkleListIteratorBase T))
    (r2 : result (A * MerkleListBase T)) : Prop :=
  match r1, r2 with
  | Ok (v1, it'), Ok (v2, l') => v1 = v2 ∧ at_same_place it' l'
  | ConstraintViolation, ConstraintViolation => True
  | _, _ => False
  end.

(** A call on a list object writes to the container of its [data]
    field and to no other; the object keeps its reference. *)
Definition list_frame (s s' : Heap.store T * Heap.ListObj.t) : Prop :=
  Heap.ListObj.data s'.2 = Heap.ListObj.data s.2 ∧
  Heap.numbers s'.1 = Heap.numbers s.1 ∧
  ∀ r, r ≠ Heap.ListObj.data s.2 → Heap.nodes s'.1 !! r = Heap.nodes s.1 !! r.

(** A call on an iterator object writes to the container of its
    [currentIndex] field and to no other; no [data] container is
    written. *)
Definition iterator_frame (s s' : Heap.store T * Heap.IteratorObj.t) : Prop :=
  Heap.IteratorObj.data s'.2 = Heap.IteratorObj.data s.2 ∧
  Heap.IteratorObj.hash s'.2 = Heap.IteratorObj.hash s.2 ∧
  Heap.IteratorObj.currentIndex s'.2 = Heap.IteratorObj.currentIndex s.2 ∧
  Heap.nodes s'.1 = Heap.nodes s.1 ∧
  ∀ r, r ≠ Heap.IteratorObj.currentIndex s.2 →
       Heap.numbers s'.1 !! r = Heap.numbers s.1 !! r.
End Chain.

(** ** List types used in examples *)

(** [(hash, x) => hash.add(x).add(1)] *)
Definition addOneHash (hash x : Field) : Field :=
  Field_add (Field_add hash x) (mkField 1).

(** [MerkleList.create(Field, addOneHash)] *)
Definition AddOneList : Statics Field :=
  MerkleList.create FieldProvable addOneHash emptyHash.

(** [MerkleList.create(Field, addOneHash, Field(5))] *)
Definition CustomSentinelList : Statics Field :=
  MerkleList.create FieldProvable addOneHash (mkField 5).

(** [MerkleList.create(Field, (hash, x) => hash.add(x))] *)
Definition SumList : Statics Field :=
  MerkleList.create FieldProvable (λ hash x, Field_add hash x) emptyHash.

(** A chaining function into the non-zero residues. *)
Definition nonzeroHash (hash x : Field) : Field :=
  ((hash + x) mod (Field_ORDER - 1) + 1)%Z.

(** [MerkleList.create(Field, nonzeroHash)] *)
Definition NonzeroList : Statics Field :=
  MerkleList.create FieldProvable nonzeroHash emptyHash.

(** A stand-in for the hash primitive: one more than the sum of its inputs. *)
Definition sumHashWithPrefix (prefix : string) (input : list Field) : Field :=
  foldr Field_add (mkField 1) input.

(** ** The position of an iterator *)

Section Position.
Context {T : Type} (C : Statics T).

(** What the source documents of [currentHash]: it is the commitment of
    [[data[currentIndex], ..., data[length-1]]], over a record that chains
    to [hash], with the cursor within [[0, data.length]]. *)
Definition positioned (it : MerkleListIterator.MerkleListIteratorBase T) : Prop :=
  (MerkleListIterator.currentIndex it ≤ length (MerkleListIterator.data it))%nat ∧
  MerkleListIterator.currentHash it =
    chain C (drop (MerkleListIterator.currentIndex it) (MerkleListIterator.data it)) ∧
  MerkleListIterator.hash it = chain C (MerkleListIterator.data it) ∧
  linked C (MerkleListIterator.data it).

(** The values that [n] calls return on an array of elements: the first
    [n] elements, then the placeholder for every call past the end. *)
Definition padded_prefix (n : nat) (array : list T) : list T :=
  take n array ++ replicate (n - length array) (empty (_innerProvable C)).
End Position.

(** ** Bytes of a [Bool] (src/lib/core.ts) *)

(** [toBytes(b) { return [Number(b.toBoolean())]; }], the callback given
    to [defineBinable]. *)
Definition BoolBinable_toBytes (b : bool) : list Z :=
  [if b then 1%Z else 0%Z].

(** [!!x] for a byte read from an array: [undefined] (an index outside
    the array) and [0] are falsy, any other number is truthy. *)
Definition truthy (x : option Z) : bool :=
  match x with
  | None => false
  | Some n => negb (Z.eqb n 0)
  end.

(** [readBytes(bytes, offset) { return [Bool(!!bytes[offset]), offset + 1]; }],
    the callback given to [defineBinable]. *)
Definition BoolBinable_readBytes (bytes : list Z) (offset : nat) : bool * nat :=
  (truthy (bytes !! offset), (offset + 1)%nat).

(** [Bool.sizeInBytes = () => 1] *)
Definition Bool_sizeInBytes : nat := 1.

(** ** Arrays of field elements and of big integers (src/lib/noble.ts) *)

(** [f.toBigInt()]: the canonical representative. *)
Definition Field_toBigInt (f : Field) : Z := f.

Definition fieldArrayToBigIntArray (values : list Field) : list Z :=
  map (λ f, Field_toBigInt f) values.

Definition bigintArrayToFieldArray (values : list Z) : list Field :=
  map (λ n, mkField n) values.

(** ** Pedersen commitments (src/lib/pedersen.ts) *)

Module Pedersen.

(** [GroupAffine] (bindings/crypto/elliptic-curve.js, outside the sources
    at hand): the code reads its [x] and [y], two big integers. *)
Record GroupAffine : Type := mkAffine { x : Z; y : Z; infinity : bool }.

(** The outcome of [BigInt(string)]. Only the literal form that
    [commit] passes, ["0x"] followed by digits, is modelled. *)
Inductive outcome (A : Type) : Type :=
  | Value (a : A)
  | SyntaxError
  | NotHexLiteral.
Arguments Value {A} a.
Arguments SyntaxError {A}.
Arguments NotHexLiteral {A}.

(** [n.toString(16)] for a big integer: lower-case digits, no leading
    zero, a minus sign for a negative number. *)
Definition toString16 (n : Z) : string :=
  match n with
  | Z0 => "0"
  | Zpos p => HexString.Raw.of_pos p ""
  | Zneg p => String "-"%char (HexString.Raw.of_pos p "")
  end.

Fixpoint repeat_char (c : ascii) (n : nat) : string :=
  match n with
  | O => ""
  | S n' => String c (repeat_char c n')
  end.

(** [s.padStart(targetLength, c)] for a one-character pad [c]: [s] itself
    when it is long enough. *)
Definition padStart (s : string) (targetLength : nat) (c : ascii) : string :=
  (repeat_char c (targetLength - String.length s) ++ s)%string.

Definition affineToHex (affine : GroupAffine) : string :=
  let x := padStart (toString16 (x affine)) 64 "0"%char in
  let y := padStart (toString16 (y affine)) 64 "0"%char in
  ("0x4" ++ x ++ y)%string.

Fixpoint all_hex_digits (s : string) : bool :=
  match s with
  | EmptyString => true
  | String ch s' =>
      match HexString.ascii_to_digit ch with
      | Some _ => all_hex_digits s'
      | None => false
      end
  end.

(** [BigInt(s)] on a hexadecimal literal: the number its digits denote,
    a [SyntaxError] when no digit follows ["0x"] or a character is not a
    hexadecimal digit. *)
Definition BigInt (s : string) : outcome Z :=
  match s with
  | String "0"%char (String "x"%char digits) =>
      match digits with
      | EmptyString => SyntaxError
      | _ =>
          if all_hex_digits digits
          then Value (Z.of_N (HexString.Raw.to_N digits 0%N))
          else SyntaxError
      end
  | _ => NotHexLiteral
  end.

Section Curve.
(** [Pallas = Crypto.createCurve(Crypto.CurveParams.Pallas)] and the two
    points [G] and [H] built with [Pallas.from] are outside the sources at
    hand: the curve operations and the points are parameters. *)
Variable Pallas_add : GroupAffine → GroupAffine → GroupAffine.
Variable Pallas_scale : GroupAffine → Z → GroupAffine.
Variables G H : GroupAffine.

(** The point that [commit(x, r)] encodes. *)
Definition commitPoint (x r : Z) : GroupAffine :=
  Pallas_add (Pallas_scale G x) (Pallas_scale H r).

Definition commit (x r : Z) : outcome Z :=
  let affinePoint := Pallas_add (Pallas_scale G x) (Pallas_scale H r) in
  BigInt (affineToHex affinePoint).

Definition verifyCommitment (x r commitment : Z) : outcome bool :=
  match commit x r with
  | Value otherCommitment => Value (Z.eqb commitment otherCommitment)
  | SyntaxError => SyntaxError
  | NotHexLiteral => NotHexLiteral
  end.
End Curve.

(** The number that the literal ["0x4" ++ x ++ y] denotes when [x] and
    [y] take 64 digits each. *)
Definition encoding (px py : Z) : Z :=
  (4 * 16 ^ 128 + px * 16 ^ 64 + py)%Z.

(** The number of hexadecimal digits of a positive number. *)
Definition hexlen (p : positive) : nat :=
  String.length (HexString.Raw.of_pos p "").

End Pedersen.

(** * Properties *)

(** ** Field equality and assertions *)

Lemma Field_equals_refl (x : Field) : Field_equals x x = true.
Proof. apply Z.eqb_refl. Qed.

Lemma Field_equals_true (x y : Field) : Field_equals x y = true ↔ x = y.
Proof. apply Z.eqb_eq. Qed.

Lemma Field_equals_false (x y : Field) : Field_equals x y = false ↔ x ≠ y.
Proof. apply Z.eqb_neq. Qed.

Lemma assertEquals_refl (x : Field) : assertEquals x x = Ok ().
Proof. unfold assertEquals. by rewrite Field_equals_refl. Qed.

Lemma assertEquals_ne (x y : Field) :
  x ≠ y → assertEquals x y = ConstraintViolation.
Proof.
  intros Hne. unfold assertEquals.
  by rewrite (proj2 (Field_equals_false x y) Hne).
Qed.

Lemma emptyHash_zero : emptyHash = 0%Z.
Proof. reflexivity. Qed.

(** ** [withHashes] *)

Section WithHashes.
Context {T : Type} (nextHash : Field → T → Field) (e0 : Field).

Lemma withHashes_nil : withHashes [] nextHash e0 = {| hash := e0; data := [] |}.
Proof. reflexivity. Qed.

Lemma withHashes_cons (x : T) (xs : list T) :
  withHashes (x :: xs) nextHash e0 =
  {| hash := nextHash (hash (withHashes xs nextHash e0)) x;
     data := mkWithHash (hash (withHashes xs nextHash e0)) x
             :: data (withHashes xs nextHash e0) |}.
Proof.
  unfold withHashes. simpl rev. rewrite fold_left_app. simpl.
  by destruct (fold_left _ (rev xs) _) as [arr cur].
Qed.

Lemma withHashes_elements (xs : list T) :
  map element (data (withHashes xs nextHash e0)) = xs.
Proof.
  induction xs as [|x xs IH]; [done|].
  rewrite withHashes_cons. simpl. by rewrite IH.
Qed.

Lemma withHashes_length (xs : list T) :
  length (data (withHashes xs nextHash e0)) = length xs.
Proof. by rewrite <- (withHashes_elements xs) at 2; rewrite length_map. Qed.
End WithHashes.

(** ** The chain invariant *)

Section ChainFacts.
Context {T : Type} (C : Statics T).

Lemma withHashes_chain (xs : list T) :
  hash (withHashes xs (_nextHash C) (_emptyHash C)) =
  chain C (data (withHashes xs (_nextHash C) (_emptyHash C))).
Proof.
  induction xs as [|x xs IH]; [done|].
  rewrite withHashes_cons. simpl. by rewrite <- IH.
Qed.

Lemma withHashes_linked (xs : list T) :
  linked C (data (withHashes xs (_nextHash C) (_emptyHash C))).
Proof.
  induction xs as [|x xs IH]; [done|].
  rewrite withHashes_cons. simpl. split; [apply withHashes_chain | done].
Qed.

Lemma chained_empty : chained C (MerkleList.empty C).
Proof. by split. Qed.

Lemma chained_from (array : list T) : chained C (MerkleList.from C array).
Proof. split; [apply withHashes_chain | apply withHashes_linked]. Qed.

Lemma chained_push (l : MerkleListBase T) (v : T) :
  chained C l → chained C (MerkleList.push C l v).
Proof.
  intros [Hh Hl]. split; simpl; [by rewrite <- Hh | done].
Qed.

Lemma chained_pushIf (l : MerkleListBase T) (b : bool) (v : T) :
  chained C l → chained C (MerkleList.pushIf C l b v).
Proof.
  intros [Hh Hl]. destruct b; split; simpl; try done. by rewrite <- Hh.
Qed.

Lemma chained_clone (l : MerkleListBase T) :
  chained C l → chained C (MerkleList.clone l).
Proof. done. Qed.

(** In a chained list the head node hashes to the commitment. *)
Lemma chained_head (l : MerkleListBase T) (node : WithHash T) d :
  chained C l → data l = node :: d →
  hash l = _nextHash C (previousHash node) (element node) ∧
  chained C {| hash := previousHash node; data := d |}.
Proof.
  intros [Hh Hl] Hd. rewrite Hd in Hh, Hl. simpl in *.
  destruct Hl as [Hp Hl]. rewrite Hp. done.
Qed.

Lemma chained_popExn (l l' : MerkleListBase T) (v : T) :
  chained C l → MerkleList.popExn C l = Ok (v, l') → chained C l'.
Proof.
  intros Hc. unfold MerkleList.popExn, MerkleList.popExn_on, MerkleList.popWitness.
  destruct (data l) as [|node d] eqn:Hd; simpl.
  - destruct (assertEquals _ _); simpl; [|done].
    intros [= _ <-]. by split.
  - destruct (assertEquals _ _); simpl; [|done].
    intros [= _ <-]. by destruct (chained_head l node d Hc Hd).
Qed.

(** [pop] never fails on a chained list. *)
Lemma chained_pop_succeeds (l : MerkleListBase T) :
  chained C l → succeeds (MerkleList.pop C l) = true.
Proof.
  intros Hc. unfold MerkleList.pop, MerkleList.popWitness, MerkleList.isEmpty.
  destruct (data l) as [|node d] eqn:Hd; simpl.
  - destruct Hc as [Hh _]. rewrite Hd in Hh. simpl in Hh.
    rewrite Hh, Field_equals_refl, assertEquals_refl. done.
  - destruct (chained_head l node d Hc Hd) as [Hh _].
    destruct (Field_equals (hash l) (_emptyHash C)) eqn:He.
    + apply Field_equals_true in He. rewrite He, assertEquals_refl. done.
    + rewrite <- Hh, assertEquals_refl. done.
Qed.

Lemma sentinel_free_chain_nonempty (d : list (WithHash T)) :
  sentinel_free C → d ≠ [] → chain C d ≠ _emptyHash C.
Proof. intros Hs Hd. destruct d; [done|]. simpl. apply Hs. Qed.

Lemma chained_pop (l l' : MerkleListBase T) (v : T) :
  sentinel_free C →
  chained C l → MerkleList.pop C l = Ok (v, l') → chained C l'.
Proof.
  intros Hs Hc. unfold MerkleList.pop, MerkleList.popWitness, MerkleList.isEmpty.
  destruct (data l) as [|node d] eqn:Hd; simpl.
  - destruct Hc as [Hh _]. rewrite Hd in Hh. simpl in Hh.
    rewrite Hh, Field_equals_refl, assertEquals_refl. simpl.
    intros [= _ <-]. by split.
  - destruct (chained_head l node d Hc Hd) as [Hh Hc'].
    assert (Field_equals (hash l) (_emptyHash C) = false) as ->.
    { apply Field_equals_false. rewrite Hh. apply Hs. }
    rewrite <- Hh, assertEquals_refl. simpl. by intros [= _ <-].
Qed.
End ChainFacts.

(** ** Popping *)

Section PopFacts.
Context {T : Type} (C : Statics T).

(** [pop] on a list whose head node hashes to a commitment other than
    the sentinel: the head's element comes back and the commitment steps
    to the head's [previousHash]. *)
Lemma pop_head (l : MerkleListBase T) (node : WithHash T) d :
  data l = node :: d →
  hash l = _nextHash C (previousHash node) (element node) →
  hash l ≠ _emptyHash C →
  MerkleList.pop C l = Ok (element node, {| hash := previousHash node; data := d |}).
Proof.
  intros Hd Hh Hne. unfold MerkleList.pop, MerkleList.popWitness, MerkleList.isEmpty.
  rewrite Hd. simpl.
  rewrite (proj2 (Field_equals_false _ _) Hne).
  rewrite <- Hh, assertEquals_refl. done.
Qed.

(** [pop] on a list whose commitment is the sentinel. *)
Lemma pop_at_sentinel (l : MerkleListBase T) :
  hash l = _emptyHash C →
  MerkleList.pop C l =
    Ok (empty (_innerProvable C), {| hash := _emptyHash C; data := tail (data l) |}).
Proof.
  intros Hh. unfold MerkleList.pop, MerkleList.popWitness, MerkleList.isEmpty.
  destruct (data l) as [|node d]; simpl;
    rewrite Hh, Field_equals_refl, assertEquals_refl; done.
Qed.

Lemma pop_n_chained (d : list (WithHash T)) : ∀ h,
  chained C {| hash := h; data := d |} →
  no_sentinel_collision C d = true →
  MerkleList.pop_n C (length d) {| hash := h; data := d |} =
    Ok (map element d, MerkleList.empty C).
Proof.
  induction d as [|node d IH]; intros h Hc Hn.
  - destruct Hc as [Hh _]. simpl in *. by rewrite Hh.
  - destruct (chained_head C _ node d Hc eq_refl) as [Hh Hc'].
    simpl in Hh, Hn. apply andb_true_iff in Hn as [Hn1 Hn].
    apply negb_true_iff, Field_equals_false in Hn1.
    cbn [length MerkleList.pop_n].
    rewrite (pop_head {| hash := h; data := node :: d |} node d eq_refl Hh)
      by (simpl; by rewrite Hh).
    simpl. rewrite (IH _ Hc' Hn). done.
Qed.


Lemma pop_poppable (l : MerkleListBase T) :
  poppable C l →
  ∃ v l', MerkleList.pop C l = Ok (v, l') ∧ poppable C l' ∧
          data l' = tail (data l).
Proof.
  unfold poppable. intros Hp.
  destruct (decide (hash l = _emptyHash C)) as [He|Hne].
  - rewrite (pop_at_sentinel l He). eexists _, _. split; [done|].
    split; [by left | done].
  - destruct Hp as [He|Hc]; [done|].
    destruct (data l) as [|node d] eqn:Hd.
    + destruct Hc as [Hh _]. rewrite Hd in Hh. done.
    + destruct (chained_head C l node d Hc Hd) as [Hh Hc'].
      rewrite (pop_head l node d Hd Hh Hne). eexists _, _. split; [done|].
      split; [by right | done].
Qed.

Lemma pop_n_poppable (n : nat) : ∀ l,
  poppable C l →
  ∃ vs l', MerkleList.pop_n C n l = Ok (vs, l') ∧ poppable C l' ∧
           data l' = drop n (data l).
Proof.
  induction n as [|n IH]; intros l Hp.
  - exists [], l. by rewrite drop_0.
  - destruct (pop_poppable l Hp) as (v & l1 & Hpop & Hp1 & Hd1).
    destruct (IH l1 Hp1) as (vs & l2 & Hpops & Hp2 & Hd2).
    exists (v :: vs), l2. simpl. rewrite Hpop. simpl. rewrite Hpops. simpl.
    split; [done|]. split; [done|].
    rewrite Hd2, Hd1. destruct (data l); [|done]. simpl. apply drop_nil.
Qed.
End PopFacts.

(** X13. After as many [pop]s as the array is long, a list made by
    [from] is at the empty commitment with an empty record, whatever the
    chaining function: the calls never fail. *)
Lemma from_pop_n_final_commitment {T} (C : Statics T) (array : list T) :
  ∃ vs, MerkleList.pop_n C (length array) (MerkleList.from C array) =
          Ok (vs, MerkleList.empty C).
Proof.
  destruct (pop_n_poppable C (length array) (MerkleList.from C array))
    as (vs & l' & Hpops & Hp & Hd).
  { unfold poppable. right. apply chained_from. }
  exists vs. rewrite Hpops. do 2 f_equal.
  destruct l' as [h d]. simpl in Hd.
  assert (d = []) as ->.
  { rewrite Hd. apply drop_ge. simpl. by rewrite withHashes_length. }
  unfold MerkleList.empty. f_equal.
  unfold poppable, chained in Hp. simpl in Hp. by destruct Hp as [He|[Hh _]].
Qed.

(** C1, as amended. For every list type and every array whose nodes do
    not hash onto the empty sentinel, [from([v0..v(n-1)])] followed by [n]
    calls of [pop] returns [v0, v1, ..., v(n-1)] in that order, the order
    of the array itself, and leaves the empty list: the commitment is the
    empty sentinel and the record is empty. *)
Theorem from_pop_n_roundtrip {T} (C : Statics T) (array : list T) :
  no_sentinel_collision C (data (MerkleList.from C array)) = true →
  MerkleList.pop_n C (length array) (MerkleList.from C array) =
    Ok (array, MerkleList.empty C).
Proof.
  intros Hn.
  pose proof (pop_n_chained C (data (MerkleList.from C array))
                (hash (MerkleList.from C array))) as Hpop.
  simpl in Hpop, Hn. rewrite withHashes_length, withHashes_elements in Hpop.
  apply Hpop; [|done]. apply (chained_from C array).
Qed.

Lemma from_pop_n_roundtrip_witness :
  MerkleList.pop_n AddOneList (length [3; 1; 4]%Z)
    (MerkleList.from AddOneList [3; 1; 4]%Z) =
  Ok ([3; 1; 4]%Z, MerkleList.empty AddOneList).
Proof.
  apply (from_pop_n_roundtrip AddOneList [3; 1; 4]%Z).
  vm_compute. reflexivity.
Defined.

(** C1, as stated, fails: with [nextHash = (h, x) => h.add(x).add(1)] the
    three [pop]s after [from([3, 1, 4])] do not return [4, 1, 3]. *)
Lemma from_pop_n_not_reversed :
  ¬ ∃ l', MerkleList.pop_n AddOneList 3 (MerkleList.from AddOneList [3; 1; 4]%Z) =
            Ok (rev [3; 1; 4]%Z, l')
          ∧ hash l' = _emptyHash AddOneList.
Proof. intros (l' & Hpop & _). vm_compute in Hpop. discriminate. Qed.

(** ** The scenario [from([3, 1, 4])] *)

(** C2. With a single field value as element and the default chaining
    function, [nextHash(h, x) = H(prefix, h, x)] and the empty sentinel is
    0. [from([3, 1, 4])] chains from the right: the node of 4 has
    [previousHash = 0], and the commitment is
    [h0 = H(prefix, H(prefix, H(prefix, 0, 4), 1), 3)]. The three [pop]s
    return 3, 1 and 4 and leave [h1], [h2] and 0. The hash primitive is a
    parameter; that [h0], [h1] and [h2] differ from the sentinel 0 is what
    is assumed of it. *)
Theorem from_3_1_4_scenario
    (hashWithPrefix : string → list Field → Field) (prefix : string) :
  let C := MerkleList.create FieldProvable
             (merkleListHash hashWithPrefix FieldProvable prefix) emptyHash in
  let H := λ (h x : Field), hashWithPrefix prefix [h; x] in
  let h2 := H 0%Z 4%Z in
  let h1 := H h2 1%Z in
  let h0 := H h1 3%Z in
  h0 ≠ 0%Z → h1 ≠ 0%Z → h2 ≠ 0%Z →
  (∀ h x, _nextHash C h x = H h x) ∧
  _emptyHash C = 0%Z ∧
  MerkleList.from C [3; 1; 4]%Z =
    {| hash := h0;
       data := [mkWithHash h1 3%Z; mkWithHash h2 1%Z; mkWithHash 0%Z 4%Z] |} ∧
  MerkleList.pop C (MerkleList.from C [3; 1; 4]%Z) =
    Ok (3%Z, {| hash := h1; data := [mkWithHash h2 1%Z; mkWithHash 0%Z 4%Z] |}) ∧
  MerkleList.pop C {| hash := h1; data := [mkWithHash h2 1%Z; mkWithHash 0%Z 4%Z] |} =
    Ok (1%Z, {| hash := h2; data := [mkWithHash 0%Z 4%Z] |}) ∧
  MerkleList.pop C {| hash := h2; data := [mkWithHash 0%Z 4%Z] |} =
    Ok (4%Z, {| hash := 0%Z; data := [] |}).
Proof.
  intros C H h2 h1 h0 H0 H1 H2.
  assert (MerkleList.from C [3; 1; 4]%Z =
    {| hash := h0;
       data := [mkWithHash h1 3%Z; mkWithHash h2 1%Z; mkWithHash 0%Z 4%Z] |})
    as Hfrom by reflexivity.
  split; [done|]. split; [done|]. split; [done|].
  rewrite Hfrom.
  split; [|split].
  - by apply (pop_head C _ (mkWithHash h1 3%Z)).
  - by apply (pop_head C _ (mkWithHash h2 1%Z)).
  - by apply (pop_head C _ (mkWithHash 0%Z 4%Z)).
Qed.

Lemma from_3_1_4_scenario_witness :
  let C := MerkleList.create FieldProvable
             (merkleListHash sumHashWithPrefix FieldProvable "") emptyHash in
  MerkleList.pop C (MerkleList.from C [3; 1; 4]%Z) =
    Ok (3%Z, {| hash := 7%Z; data := [mkWithHash 5%Z 1%Z; mkWithHash 0%Z 4%Z] |}).
Proof.
  intros C.
  refine (proj1 (proj2 (proj2 (proj2
    (from_3_1_4_scenario sumHashWithPrefix "" _ _ _))))); vm_compute; discriminate.
Defined.

(** ** Push then pop *)

(** C7, as amended. For every list [L] and value [v] whose push leaves a commitment
    other than the empty sentinel, [L.push(v)] followed by [L.pop()]
    returns [v] and restores [L]: the commitment and the record are what
    they were before the push. The chain invariant of [L] is not needed. *)
Theorem push_pop_inverse {T} (C : Statics T) (l : MerkleListBase T) (v : T) :
  _nextHash C (hash l) v ≠ _emptyHash C →
  MerkleList.pop C (MerkleList.push C l v) = Ok (v, l).
Proof.
  intros Hne.
  rewrite (pop_head C (MerkleList.push C l v) (mkWithHash (hash l) v) (data l));
    [by destruct l | done | done | done].
Qed.

Lemma push_pop_inverse_witness :
  MerkleList.pop AddOneList
    (MerkleList.push AddOneList (MerkleList.from AddOneList [3; 1; 4]%Z) 9%Z) =
  Ok (9%Z, MerkleList.from AddOneList [3; 1; 4]%Z).
Proof.
  apply (push_pop_inverse AddOneList (MerkleList.from AddOneList [3; 1; 4]%Z) 9%Z).
  vm_compute. discriminate.
Defined.

(** C7, as stated, fails: with [nextHash = (h, x) => h.add(x).add(1)] the
    list [L = from([3])] keeps the chain invariant and has commitment 4;
    pushing [v = Field(-5)] gives commitment 0, the empty sentinel, so the
    [pop] that follows returns the placeholder 0, not [v], and leaves
    commitment 0, not 4. *)
Lemma push_pop_at_sentinel :
  let L := MerkleList.from AddOneList [3%Z] in
  let v := mkField (-5) in
  chained AddOneList L ∧
  hash L = 4%Z ∧
  hash (MerkleList.push AddOneList L v) = _emptyHash AddOneList ∧
  MerkleList.pop AddOneList (MerkleList.push AddOneList L v) =
    Ok (0%Z, {| hash := 0%Z; data := data L |}) ∧
  MerkleList.pop AddOneList (MerkleList.push AddOneList L v) ≠ Ok (v, L).
Proof.
  intros L v. split; [apply chained_from|]. by vm_compute.
Qed.

(** ** The empty list *)

Lemma NonzeroList_sentinel_free : sentinel_free NonzeroList.
Proof.
  intros h x. change (_emptyHash NonzeroList) with 0%Z.
  change (_nextHash NonzeroList h x) with ((h + x) mod (Field_ORDER - 1) + 1)%Z.
  assert (0 < Field_ORDER - 1)%Z as Hpos by done.
  pose proof (Z.mod_pos_bound (h + x) (Field_ORDER - 1) Hpos). lia.
Qed.

Lemma popExn_on_fails {T} (C : Statics T) (w : WithHash T) (l1 : MerkleListBase T) :
  MerkleList.popExn_on C w l1 = ConstraintViolation ↔
  hash l1 ≠ _nextHash C (previousHash w) (element w).
Proof.
  unfold MerkleList.popExn_on, assertEquals.
  destruct (Field_equals _ _) eqn:Ha; simpl.
  - apply Field_equals_true in Ha. by split.
  - apply Field_equals_false in Ha. by split.
Qed.

(** C5, as amended. On the empty list [pop] emits no failing assertion,
    returns the placeholder of the element type and leaves the empty
    list, whatever the chaining function. [popExn] on the empty list
    witnesses the dummy node and fails exactly when
    [nextHash(EMPTY_HASH, empty())] is not the empty sentinel. Its
    assertion [hash == nextHash(previousHash, element)] fails for every
    witnessed node exactly when the sentinel is outside the image of the
    chaining function; for such a chaining function, on a list that keeps
    the chain invariant, [popExn] fails exactly when the list is empty.
    On a list that keeps the chain invariant and has a non-empty record
    [popExn] succeeds. *)
Theorem pop_popExn_on_empty {T} (C : Statics T) :
  MerkleList.pop C (MerkleList.empty C) =
    Ok (empty (_innerProvable C), MerkleList.empty C) ∧
  (MerkleList.popExn C (MerkleList.empty C) = ConstraintViolation ↔
   _nextHash C (_emptyHash C) (empty (_innerProvable C)) ≠ _emptyHash C) ∧
  ((∀ w, MerkleList.popExn_on C w (MerkleList.empty C) = ConstraintViolation) ↔
   sentinel_free C) ∧
  (sentinel_free C →
   ∀ l, chained C l →
      (MerkleList.popExn C l = ConstraintViolation ↔ MerkleList.isEmpty C l = true) ∧
      (MerkleList.isEmpty C l = true ↔ data l = [])) ∧
  (∀ l, chained C l → data l ≠ [] → succeeds (MerkleList.popExn C l) = true).
Proof.
  split; [by rewrite pop_at_sentinel|].
  split.
  { change (MerkleList.popExn C (MerkleList.empty C))
      with (MerkleList.popExn_on C
              {| previousHash := _emptyHash C; element := empty (_innerProvable C) |}
              (MerkleList.empty C)).
    rewrite popExn_on_fails. simpl. split; intros Hne Heq; by apply Hne. }
  split.
  { split.
    - intros Hall h x Heq.
      apply (proj1 (popExn_on_fails C (mkWithHash h x) (MerkleList.empty C)) (Hall _)).
      done.
    - intros Hs w. apply popExn_on_fails. simpl. intros Heq. by eapply Hs. }
  assert (∀ l node d, chained C l → data l = node :: d →
            MerkleList.popExn C l =
              Ok (element node, {| hash := previousHash node; data := d |})) as Hhead.
  { intros l node d Hc Hd. destruct (chained_head C l node d Hc Hd) as [Hh _].
    unfold MerkleList.popExn, MerkleList.popWitness, MerkleList.popExn_on.
    rewrite Hd. simpl. by rewrite <- Hh, assertEquals_refl. }
  split.
  - intros Hs l Hc.
    assert (MerkleList.isEmpty C l = true ↔ data l = []) as Hempty.
    { unfold MerkleList.isEmpty. rewrite Field_equals_true. split.
      - intros Hh. destruct (data l) as [|node d] eqn:Hd; [done|].
        destruct (chained_head C l node d Hc Hd) as [Hh' _].
        rewrite Hh in Hh'. by apply eq_sym, Hs in Hh'.
      - intros Hd. destruct Hc as [Hh _]. by rewrite Hd in Hh. }
    split; [|done]. rewrite Hempty.
    destruct (data l) as [|node d] eqn:Hd.
    + split; [done|]. intros _.
      unfold MerkleList.popExn, MerkleList.popWitness. rewrite Hd.
      apply popExn_on_fails. simpl. destruct Hc as [Hh _]. rewrite Hd in Hh.
      simpl in Hh. rewrite Hh. intros Heq. by eapply Hs.
    + rewrite (Hhead l node d Hc Hd). done.
  - intros l Hc Hd. destruct (data l) as [|node d] eqn:Hd'; [done|].
    by rewrite (Hhead l node d Hc Hd').
Qed.

Lemma pop_popExn_on_empty_witness :
  MerkleList.popExn NonzeroList (MerkleList.empty NonzeroList) = ConstraintViolation.
Proof.
  apply (proj2 (proj1 (proj2 (pop_popExn_on_empty NonzeroList)))).
  apply NonzeroList_sentinel_free.
Defined.

(** C5, as stated, fails: with [nextHash = (h, x) => h.add(x)] the
    assertion of [popExn] on the empty list is [0 == 0.add(0)], which
    holds, so [popExn] succeeds on the empty list and returns the
    placeholder. *)
Lemma popExn_on_empty_succeeds :
  MerkleList.popExn SumList (MerkleList.empty SumList) =
    Ok (0%Z, MerkleList.empty SumList) ∧
  MerkleList.popExn SumList (MerkleList.empty SumList) ≠ ConstraintViolation.
Proof. by vm_compute. Qed.

(** ** Conditional operations *)

Section Conditional.
Context {T : Type} (C : Statics T).

Lemma pushIf_false (l : MerkleListBase T) (v : T) :
  MerkleList.pushIf C l false v = l.
Proof. by destruct l. Qed.

Lemma pushIf_true (l : MerkleListBase T) (v : T) :
  MerkleList.pushIf C l true v = MerkleList.push C l v.
Proof. reflexivity. Qed.

Lemma popIf_true (l : MerkleListBase T) :
  MerkleList.popIf C l true = MerkleList.pop C l.
Proof.
  unfold MerkleList.popIf. destruct (MerkleList.pop C l) as [[v [h d]]|]; done.
Qed.

(** On a list whose head node hashes to its commitment, other than the
    sentinel, [popIf(false)] returns the head's element and puts the
    head back. *)
Lemma popIf_false_head (l : MerkleListBase T) (node : WithHash T) d :
  data l = node :: d →
  hash l = _nextHash C (previousHash node) (element node) →
  hash l ≠ _emptyHash C →
  MerkleList.popIf C l false = Ok (element node, l).
Proof.
  intros Hd Hh Hne. unfold MerkleList.popIf.
  rewrite (pop_head C l node d Hd Hh Hne). simpl.
  destruct l as [h d0], node as [p e]. simpl in *. by subst d0.
Qed.

Lemma chained_popIf_false_head (l : MerkleListBase T) :
  chained C l → hash l ≠ _emptyHash C →
  ∃ v, MerkleList.popIf C l false = Ok (v, l).
Proof.
  intros Hc Hne. destruct (data l) as [|node d] eqn:Hd.
  - destruct Hc as [Hh _]. by rewrite Hd in Hh.
  - destruct (chained_head C l node d Hc Hd) as [Hh _].
    exists (element node). by apply (popIf_false_head l node d).
Qed.

Lemma chained_popIf_true (l l' : MerkleListBase T) (v : T) :
  sentinel_free C →
  chained C l → MerkleList.popIf C l true = Ok (v, l') → chained C l'.
Proof. rewrite popIf_true. apply chained_pop. Qed.
End Conditional.

(** [popIf(false)] on the empty list: the node built from what [pop]
    returned is the dummy node, and it is put in front of the record. *)
Lemma popIf_false_empty {T} (C : Statics T) :
  MerkleList.popIf C (MerkleList.empty C) false =
    Ok (empty (_innerProvable C),
        {| hash := _emptyHash C;
           data := [mkWithHash (_emptyHash C) (empty (_innerProvable C))] |}).
Proof. unfold MerkleList.popIf. by rewrite pop_at_sentinel. Qed.

(** C6, the failing input. [popIf(false)] on the empty list returns the
    placeholder and keeps the commitment, but its record is no longer
    empty: it holds the dummy node [{EMPTY_HASH, empty()}]. *)
Theorem popIf_false_on_empty {T} (C : Statics T) :
  MerkleList.popIf C (MerkleList.empty C) false =
    Ok (empty (_innerProvable C),
        {| hash := _emptyHash C;
           data := [mkWithHash (_emptyHash C) (empty (_innerProvable C))] |})
  ∧ MerkleList.popIf C (MerkleList.empty C) false ≠
    Ok (empty (_innerProvable C), MerkleList.empty C).
Proof.
  split; [apply popIf_false_empty|].
  rewrite popIf_false_empty. unfold MerkleList.empty. intros [=].
Qed.

(** C4, the failing input. The empty list of [AddOneList] keeps the chain
    invariant; the list that [popIf(false)] leaves does not: its
    commitment is 0 and the chain of its record is 1. *)
Theorem popIf_false_breaks_chain :
  chained AddOneList (MerkleList.empty AddOneList) ∧
  ∃ v l', MerkleList.popIf AddOneList (MerkleList.empty AddOneList) false = Ok (v, l')
          ∧ hash l' = 0%Z ∧ chain AddOneList (data l') = 1%Z
          ∧ ¬ chained AddOneList l'.
Proof.
  split; [apply chained_empty|].
  eexists _, _. split; [apply popIf_false_empty|].
  split; [done|]. split; [done|]. intros [Hh _]. vm_compute in Hh. discriminate.
Qed.

(** ** The iterator type derived from a list type *)

Section Derived.
Context {T : Type} (C : Statics T).

Lemma createFromList_innerProvable :
  _innerProvable (MerkleListIterator.createFromList C) = _innerProvable C.
Proof. reflexivity. Qed.

Lemma createFromList_nextHash :
  _nextHash (MerkleListIterator.createFromList C) = _nextHash C.
Proof. reflexivity. Qed.

(** The sentinel of the derived type is [Field(0)], whatever the
    sentinel of the list type. *)
Lemma createFromList_emptyHash :
  _emptyHash (MerkleListIterator.createFromList C) = emptyHash.
Proof. reflexivity. Qed.

Lemma iteratorType_default_sentinel :
  _emptyHash C = emptyHash → MerkleList.iteratorType C = C.
Proof. destruct C. simpl. by intros ->. Qed.

Lemma isEmpty_isAtEnd_default_sentinel (l : MerkleListBase T) :
  _emptyHash C = emptyHash →
  MerkleListIterator.isAtEnd (MerkleList.iteratorType C)
    (MerkleList.startIterating l) = MerkleList.isEmpty C l.
Proof. intros He. by rewrite (iteratorType_default_sentinel He). Qed.
End Derived.

(** C8, the failing input. For the list type with sentinel [Field(5)] the
    derived iterator type has sentinel [Field(0)]: on the empty list
    [isEmpty()] is true and [startIterating().isAtEnd()] is false. *)
Theorem derived_iterator_drops_sentinel :
  _emptyHash CustomSentinelList = 5%Z ∧
  _emptyHash (MerkleList.iteratorType CustomSentinelList) = 0%Z ∧
  MerkleList.isEmpty CustomSentinelList (MerkleList.empty CustomSentinelList) = true ∧
  MerkleListIterator.isAtEnd (MerkleList.iteratorType CustomSentinelList)
    (MerkleList.startIterating (MerkleList.empty CustomSentinelList)) = false.
Proof. by vm_compute. Qed.

(** ** Iterating and popping *)

Section Simulation.
Context {T : Type} (C : Statics T).


Lemma drop_cons_inv {A} (i : nat) (d : list A) x d' :
  drop i d = x :: d' →
  d !! i = Some x ∧ drop (Nat.min (i + 1) (length d)) d = d'.
Proof.
  intros Hd.
  assert (d !! i = Some x) as Hx.
  { rewrite <- (Nat.add_0_r i), <- lookup_drop, Hd. done. }
  split; [done|].
  apply lookup_lt_Some in Hx.
  replace (Nat.min (i + 1) (length d)) with (i + 1)%nat by lia.
  rewrite <- drop_drop, Hd. done.
Qed.

Lemma drop_nil_inv {A} (i : nat) (d : list A) :
  drop i d = [] →
  d !! i = None ∧ drop (Nat.min (i + 1) (length d)) d = [].
Proof.
  intros Hd.
  assert (length d ≤ i)%nat as Hlen.
  { apply (f_equal length) in Hd. rewrite length_drop in Hd. simpl in Hd. lia. }
  split; [by apply lookup_ge_None|]. apply drop_ge. lia.
Qed.

Lemma next_pop_agree it l :
  at_same_place it l →
  agree (MerkleListIterator.next C it) (MerkleList.pop C l).
Proof.
  intros [Hh Hd].
  unfold MerkleListIterator.next, MerkleListIterator.nextWitness,
    MerkleListIterator.isAtEnd, MerkleList.pop, MerkleList.popWitness,
    MerkleList.isEmpty.
  destruct (data l) as [|node d].
  - destruct (drop_nil_inv _ _ Hd) as [-> Hd']. simpl. rewrite Hh.
    destruct (assertEquals _ _); simpl; [|done]. by repeat split.
  - destruct (drop_cons_inv _ _ _ _ Hd) as [-> Hd']. simpl. rewrite Hh.
    destruct (assertEquals _ _); simpl; [|done]. by repeat split.
Qed.

Lemma next_n_pop_n_agree (n : nat) : ∀ it l,
  at_same_place it l →
  agree (MerkleListIterator.next_n C n it) (MerkleList.pop_n C n l).
Proof.
  induction n as [|n IH]; intros it l Hs; [done|].
  pose proof (next_pop_agree it l Hs) as H1.
  cbn [MerkleListIterator.next_n MerkleList.pop_n].
  destruct (MerkleListIterator.next C it) as [[v1 it1]|],
           (MerkleList.pop C l) as [[v2 l1]|]; simpl in *; try done.
  destruct H1 as [-> Hs1]. specialize (IH it1 l1 Hs1).
  destruct (MerkleListIterator.next_n C n it1) as [[vs1 it2]|],
           (MerkleList.pop_n C n l1) as [[vs2 l2]|]; simpl in *; try done.
  destruct IH as [-> Hs2]. done.
Qed.

Lemma agree_values {A}
    (r1 : result (A * MerkleListIterator.MerkleListIteratorBase T))
    (r2 : result (A * MerkleListBase T)) :
  agree r1 r2 → fst <$> r1 = fst <$> r2.
Proof.
  destruct r1 as [[v1 it]|], r2 as [[v2 l]|]; simpl; try done.
  by intros [-> _].
Qed.

Lemma startIterating_at_same_place (l : MerkleListBase T) :
  at_same_place (MerkleList.startIterating l) (MerkleList.clone l).
Proof. split; [done|]. apply drop_0. Qed.

(** X12. For a list type with the default sentinel, any number of [next]
    calls on [L.startIterating()] and as many [pop] calls on a clone of
    [L] give the same outcome: the same values in the same order, or a
    failed assertion in both. No condition on [L] is needed. *)
Lemma startIterating_next_n_pop_n (l : MerkleListBase T) (n : nat) :
  _emptyHash C = emptyHash →
  fst <$> MerkleListIterator.next_n (MerkleList.iteratorType C) n
            (MerkleList.startIterating l) =
  fst <$> MerkleList.pop_n C n (MerkleList.clone l).
Proof.
  intros He. rewrite (iteratorType_default_sentinel C He).
  apply agree_values, next_n_pop_n_agree, startIterating_at_same_place.
Qed.
End Simulation.

(** C3, the failing input. For the list type with sentinel [Field(5)],
    [pop] on a clone of the empty list returns the placeholder, and [next]
    on the iterator that [startIterating] derives from the empty list
    fails its assertion. On [from([7])] the first [next] and the first
    [pop] both return 7; the second [pop] returns the placeholder and the
    second [next] fails. *)
Theorem startIterating_next_custom_sentinel :
  let I := MerkleList.iteratorType CustomSentinelList in
  let L := MerkleList.empty CustomSentinelList in
  let L1 := MerkleList.from CustomSentinelList [7%Z] in
  chained CustomSentinelList L ∧
  fst <$> MerkleList.pop CustomSentinelList (MerkleList.clone L) = Ok 0%Z ∧
  MerkleListIterator.next I (MerkleList.startIterating L) = ConstraintViolation ∧
  chained CustomSentinelList L1 ∧
  fst <$> MerkleList.pop_n CustomSentinelList 2 (MerkleList.clone L1) = Ok [7; 0]%Z ∧
  fst <$> MerkleListIterator.next_n I 1 (MerkleList.startIterating L1) = Ok [7%Z] ∧
  MerkleListIterator.next_n I 2 (MerkleList.startIterating L1) = ConstraintViolation.
Proof.
  intros I L L1.
  split; [apply chained_empty|]. split; [by vm_compute|]. split; [by vm_compute|].
  split; [apply chained_from|]. by vm_compute.
Qed.

(** ** Advancing past the end *)

Section PastTheEnd.
Context {T : Type} (C : Statics T).

Lemma next_at_end_step (it : MerkleListIterator.MerkleListIteratorBase T) :
  MerkleListIterator.isAtEnd C it = true →
  MerkleListIterator.next C it =
    Ok (empty (_innerProvable C),
        {| MerkleListIterator.hash := MerkleListIterator.hash it;
           MerkleListIterator.data := MerkleListIterator.data it;
           MerkleListIterator.currentHash := _emptyHash C;
           MerkleListIterator.currentIndex :=
             Nat.min (MerkleListIterator.currentIndex it + 1)
                     (length (MerkleListIterator.data it)) |}).
Proof.
  intros He. unfold MerkleListIterator.next. rewrite He.
  apply Field_equals_true in He. rewrite He, assertEquals_refl. done.
Qed.
End PastTheEnd.

(** C10. For an iterator at the end ([currentHash] is the empty
    sentinel), any number [n] of further [next] calls succeeds, every call
    returns the placeholder of the element type, [hash], [data] and
    [currentHash] are left as they were, so the iterator is still at the
    end, and [currentIndex] is clamped at [data.length]: it is
    [min(currentIndex + n, data.length)] once a call was made, which is
    [data.length] if it was there before. *)
Theorem next_past_the_end {T} (C : Statics T)
    (it : MerkleListIterator.MerkleListIteratorBase T) (n : nat) :
  MerkleListIterator.isAtEnd C it = true →
  ∃ it',
    MerkleListIterator.next_n C n it = Ok (replicate n (empty (_innerProvable C)), it') ∧
    MerkleListIterator.hash it' = MerkleListIterator.hash it ∧
    MerkleListIterator.data it' = MerkleListIterator.data it ∧
    MerkleListIterator.currentHash it' = MerkleListIterator.currentHash it ∧
    MerkleListIterator.currentHash it' = _emptyHash C ∧
    MerkleListIterator.isAtEnd C it' = true ∧
    MerkleListIterator.currentIndex it' =
      match n with
      | O => MerkleListIterator.currentIndex it
      | S _ => Nat.min (MerkleListIterator.currentIndex it + n)
                       (length (MerkleListIterator.data it))
      end ∧
    (MerkleListIterator.currentIndex it = length (MerkleListIterator.data it) →
     MerkleListIterator.currentIndex it' = length (MerkleListIterator.data it)).
Proof.
  revert it. induction n as [|n IH]; intros it He.
  - exists it. pose proof He as He'. apply Field_equals_true in He'.
    by repeat split.
  - cbn [MerkleListIterator.next_n]. rewrite (next_at_end_step C it He).
    set (it1 := MerkleListIterator.mk _ _ _ _).
    destruct (IH it1) as (it' & Hn & Hh & Hd & Hc & Hc' & He' & Hi & _).
    { apply Field_equals_refl. }
    exists it'. cbn [mbind result_bind]. rewrite Hn. cbn [mbind result_bind mret result_ret].
    apply Field_equals_true in He.
    assert (MerkleListIterator.currentIndex it' =
            Nat.min (MerkleListIterator.currentIndex it + S n)
                    (length (MerkleListIterator.data it))) as Hidx.
    { rewrite Hi. subst it1. destruct n; simpl; lia. }
    split; [done|]. split; [done|]. split; [done|].
    split; [by rewrite Hc', He|]. split; [done|]. split; [done|].
    split; [done|]. rewrite Hidx. lia.
Qed.

Lemma next_past_the_end_witness :
  ∃ it',
    MerkleListIterator.next_n AddOneList 2
      (MerkleListIterator.jumpToEnd AddOneList
         (MerkleListIterator.from AddOneList [3; 1; 4]%Z)) =
      Ok ([0; 0]%Z, it') ∧
    MerkleListIterator.currentIndex it' = 3%nat.
Proof.
  destruct (next_past_the_end AddOneList
              (MerkleListIterator.jumpToEnd AddOneList
                 (MerkleListIterator.from AddOneList [3; 1; 4]%Z)) 2)
    as (it' & Hn & _ & _ & _ & _ & _ & _ & Hi).
  - vm_compute. reflexivity.
  - exists it'. split; [exact Hn | apply Hi; reflexivity].
Defined.

(** ** Objects and the containers they hold *)

Section HeapFacts.
Context {T : Type} (C : Statics T).
Implicit Types (σ : Heap.store T) (o c : Heap.ListObj.t) (it : Heap.IteratorObj.t).

Lemma list_view_ext σ σ' o :
  Heap.nodes σ' !! Heap.ListObj.data o = Heap.nodes σ !! Heap.ListObj.data o →
  Heap.list_view σ' o = Heap.list_view σ o.
Proof. intros Hl. unfold Heap.list_view, Heap.get_nodes. by rewrite Hl. Qed.


Lemma list_frame_refl (s : Heap.store T * Heap.ListObj.t) : list_frame s s.
Proof. done. Qed.

Lemma list_frame_trans (s1 s2 s3 : Heap.store T * Heap.ListObj.t) :
  list_frame s1 s2 → list_frame s2 s3 → list_frame s1 s3.
Proof.
  intros (Hd1 & Hn1 & Hf1) (Hd2 & Hn2 & Hf2). split; [congruence|].
  split; [congruence|]. intros r Hr. rewrite Hf2, Hf1; congruence.
Qed.

Lemma list_write_frame σ o b : list_frame (σ, o) (Heap.list_write σ o b).
Proof.
  split; [done|]. split; [done|]. intros r Hr. simpl. by rewrite lookup_insert_ne.
Qed.

Lemma list_step_frame s s' call :
  Heap.list_step C s call = Ok s' → list_frame s s'.
Proof.
  destruct s as [σ o]. unfold Heap.list_step.
  destruct call as [e|b e| | |b]; simpl.
  - intros [= <-]. apply list_write_frame.
  - intros [= <-]. apply list_write_frame.
  - unfold Heap.pop. destruct (MerkleList.pop _ _) as [[v l']|]; simpl; [|done].
    intros [= <-]. apply list_write_frame.
  - unfold Heap.popExn. destruct (MerkleList.popExn _ _) as [[v l']|]; simpl; [|done].
    intros [= <-]. apply list_write_frame.
  - unfold Heap.popIf. destruct (MerkleList.popIf _ _ _) as [[v l']|]; simpl; [|done].
    intros [= <-]. apply list_write_frame.
Qed.

Lemma list_run_frame calls : ∀ s s',
  Heap.list_run C s calls = Ok s' → list_frame s s'.
Proof.
  induction calls as [|call calls IH]; intros s s'; simpl.
  - intros [= <-]. apply list_frame_refl.
  - destruct (Heap.list_step C s call) as [s1|] eqn:Hstep; simpl; [|done].
    intros Hrun. eapply list_frame_trans; [by eapply list_step_frame | by apply IH].
Qed.


Lemma iterator_frame_trans (s1 s2 s3 : Heap.store T * Heap.IteratorObj.t) :
  iterator_frame s1 s2 → iterator_frame s2 s3 → iterator_frame s1 s3.
Proof.
  intros (Hd1 & Hh1 & Hi1 & Hn1 & Hf1) (Hd2 & Hh2 & Hi2 & Hn2 & Hf2).
  repeat split; try congruence. intros r Hr. rewrite Hf2, Hf1; congruence.
Qed.

Lemma iterator_write_frame σ it b :
  iterator_frame (σ, it) (Heap.iterator_write σ it b).
Proof.
  repeat split. intros r Hr. simpl. by rewrite lookup_insert_ne.
Qed.

Lemma iterator_step_frame s s' call :
  Heap.iterator_step C s call = Ok s' → iterator_frame s s'.
Proof.
  destruct s as [σ it]. unfold Heap.iterator_step.
  destruct call as [| |b]; simpl.
  - unfold Heap.next. destruct (MerkleListIterator.next _ _) as [[v b]|]; simpl; [|done].
    intros [= <-]. apply iterator_write_frame.
  - intros [= <-]. apply iterator_write_frame.
  - intros [= <-]. apply iterator_write_frame.
Qed.

Lemma iterator_run_frame calls : ∀ s s',
  Heap.iterator_run C s calls = Ok s' → iterator_frame s s'.
Proof.
  induction calls as [|call calls IH]; intros s s'; simpl.
  - intros [= <-]. done.
  - destruct (Heap.iterator_step C s call) as [s1|] eqn:Hstep; simpl; [|done].
    intros Hrun. eapply iterator_frame_trans; [by eapply iterator_step_frame | by apply IH].
Qed.

Lemma clone_fresh σ o :
  is_Some (Heap.nodes σ !! Heap.ListObj.data o) →
  Heap.ListObj.data (Heap.clone σ o).2 ≠ Heap.ListObj.data o.
Proof.
  intros Hsome Heq. simpl in Heq.
  apply (is_fresh (dom (Heap.nodes σ))). rewrite Heq. by apply elem_of_dom.
Qed.
Lemma iterator_view_ext σ σ' it :
  Heap.nodes σ' !! Heap.IteratorObj.data it = Heap.nodes σ !! Heap.IteratorObj.data it →
  Heap.numbers σ' !! Heap.IteratorObj.currentIndex it =
    Heap.numbers σ !! Heap.IteratorObj.currentIndex it →
  Heap.iterator_view σ' it = Heap.iterator_view σ it.
Proof.
  intros Hn Hi. unfold Heap.iterator_view, Heap.get_nodes, Heap.get_number.
  by rewrite Hn, Hi.
Qed.

(** X11. The iterator's [clone()] makes new containers for [data] and
    [currentIndex]: the clone reads what the source reads, and calls on
    the clone leave what the source reads as it was. *)
Lemma iterator_clone_isolated σ it :
  is_Some (Heap.nodes σ !! Heap.IteratorObj.data it) →
  is_Some (Heap.numbers σ !! Heap.IteratorObj.currentIndex it) →
  let s1 := Heap.iterator_clone σ it in
  Heap.IteratorObj.data s1.2 ≠ Heap.IteratorObj.data it ∧
  Heap.IteratorObj.currentIndex s1.2 ≠ Heap.IteratorObj.currentIndex it ∧
  Heap.iterator_view s1.1 s1.2 = Heap.iterator_view σ it ∧
  ∀ calls s2, Heap.iterator_run C s1 calls = Ok s2 →
    Heap.iterator_view s2.1 it = Heap.iterator_view σ it.
Proof.
  intros Hn Hi s1.
  assert (fresh (dom (Heap.nodes σ)) ≠ Heap.IteratorObj.data it) as Hfn.
  { intros Heq. apply (is_fresh (dom (Heap.nodes σ))). rewrite Heq. by apply elem_of_dom. }
  assert (fresh (dom (Heap.numbers σ)) ≠ Heap.IteratorObj.currentIndex it) as Hfi.
  { intros Heq. apply (is_fresh (dom (Heap.numbers σ))). rewrite Heq. by apply elem_of_dom. }
  split; [done|]. split; [done|]. split.
  { unfold Heap.iterator_view, Heap.get_nodes, Heap.get_number. simpl.
    by rewrite !lookup_insert_eq. }
  intros calls s2 Hrun.
  destruct (iterator_run_frame calls _ _ Hrun) as (_ & _ & _ & Hnodes & Hnum).
  apply iterator_view_ext.
  - rewrite Hnodes. simpl. by rewrite lookup_insert_ne.
  - rewrite Hnum by (simpl; congruence). simpl. by rewrite lookup_insert_ne.
Qed.
End HeapFacts.

(** C9, as amended. [clone()] gives the copy a new [data] container with
    the same contents: whatever calls are then made on the clone, the
    source reads the same record and commitment as before, and whatever
    calls are made on the source, so does the clone. [startIterating()]
    copies nothing: the iterator holds the list's own [data] container.
    No call on the iterator writes it, so iterating leaves the list as it
    was; calls on the list do write it, and the iterator then reads the
    list's new record. *)
Theorem clone_isolated_startIterating_shares {T} (C I : Statics T)
    (σ : Heap.store T) (o : Heap.ListObj.t) :
  is_Some (Heap.nodes σ !! Heap.ListObj.data o) →
  (let '(σ1, c) := Heap.clone σ o in
   Heap.ListObj.data c ≠ Heap.ListObj.data o ∧
   Heap.list_view σ1 c = Heap.list_view σ o ∧
   Heap.list_view σ1 o = Heap.list_view σ o ∧
   (∀ calls σ2 c2, Heap.list_run C (σ1, c) calls = Ok (σ2, c2) →
      Heap.list_view σ2 o = Heap.list_view σ o) ∧
   (∀ calls σ2 o2, Heap.list_run C (σ1, o) calls = Ok (σ2, o2) →
      Heap.list_view σ2 c = Heap.list_view σ o)) ∧
  (let '(σ1, it) := Heap.startIterating σ o in
   Heap.IteratorObj.data it = Heap.ListObj.data o ∧
   Heap.list_view σ1 o = Heap.list_view σ o ∧
   (∀ calls σ2 it2, Heap.iterator_run I (σ1, it) calls = Ok (σ2, it2) →
      Heap.list_view σ2 o = Heap.list_view σ o) ∧
   (∀ calls σ2 o2, Heap.list_run C (σ1, o) calls = Ok (σ2, o2) →
      MerkleListIterator.data (Heap.iterator_view σ2 it) = data (Heap.list_view σ2 o2))).
Proof.
  intros Hsome. split.
  - pose proof (clone_fresh σ o Hsome) as Hfresh.
    destruct (Heap.clone σ o) as [σ1 c] eqn:Hclone.
    unfold Heap.clone, Heap.new_nodes in Hclone. injection Hclone as <- <-.
    simpl in Hfresh.
    set (r := fresh (dom (Heap.nodes σ))) in *.
    assert (Heap.list_view (Heap.set_nodes σ r (Heap.get_nodes σ (Heap.ListObj.data o))) o
            = Heap.list_view σ o) as Hsrc.
    { apply list_view_ext. simpl. by rewrite lookup_insert_ne. }
    split; [done|]. split.
    { unfold Heap.list_view, Heap.get_nodes at 1. simpl. by rewrite lookup_insert_eq. }
    split; [done|]. split.
    + intros calls σ2 c2 Hrun. rewrite <- Hsrc.
      destruct (list_run_frame C calls _ _ Hrun) as (_ & _ & Hf).
      apply list_view_ext. apply Hf. simpl. congruence.
    + intros calls σ2 o2 Hrun.
      destruct (list_run_frame C calls _ _ Hrun) as (_ & _ & Hf).
      unfold Heap.list_view, Heap.get_nodes at 1. simpl in *.
      rewrite Hf by done. simpl. by rewrite lookup_insert_eq.
  - unfold Heap.startIterating, Heap.iterator_startIterating, Heap.new_number.
    split; [done|]. split; [done|]. split.
    + intros calls σ2 it2 Hrun.
      destruct (iterator_run_frame I calls _ _ Hrun) as (_ & _ & _ & Hn & _).
      apply list_view_ext. simpl in Hn. by rewrite Hn.
    + intros calls σ2 o2 Hrun.
      destruct (list_run_frame C calls _ _ Hrun) as (Hd & _ & _).
      simpl in *. by rewrite Hd.
Qed.

Lemma clone_isolated_startIterating_shares_witness :
  let s := Heap.from AddOneList Heap.empty_store [3; 1; 4]%Z in
  match Heap.list_run AddOneList (Heap.clone s.1 s.2)
          [Heap.Pop; Heap.Push 9%Z; Heap.PopIf false; Heap.PopExn] with
  | Ok (σ2, c2) => Heap.list_view σ2 s.2 = Heap.list_view s.1 s.2
  | ConstraintViolation => False
  end.
Proof.
  intros s.
  assert (is_Some (Heap.nodes s.1 !! Heap.ListObj.data s.2)) as Hsome.
  { simpl. rewrite lookup_insert_eq. by eexists. }
  pose proof (proj1 (clone_isolated_startIterating_shares
                       AddOneList AddOneList s.1 s.2 Hsome)) as Hc.
  unfold Heap.clone, Heap.new_nodes in Hc |- *.
  destruct Hc as (_ & _ & _ & Hc & _).
  destruct (Heap.list_run _ _ _) as [[σ2 c2]|] eqn:Hrun.
  - exact (Hc _ _ _ Hrun).
  - vm_compute in Hrun. discriminate.
Defined.

(** C9, as stated, fails: after [it = L.startIterating()], a [pop] on [L]
    changes the record that [it] reads, and the [next] that returned 3
    before the [pop] fails its assertion after it. *)
Lemma list_pop_changes_iterator :
  let I := MerkleList.iteratorType AddOneList in
  let '(σ1, L) := Heap.from AddOneList Heap.empty_store [3; 1; 4]%Z in
  let '(σ2, it) := Heap.startIterating σ1 L in
  match Heap.pop AddOneList σ2 L with
  | Ok (v, (σ3, L')) =>
      v = 3%Z ∧
      Heap.iterator_view σ3 it ≠ Heap.iterator_view σ2 it ∧
      MerkleListIterator.data (Heap.iterator_view σ2 it) =
        [mkWithHash 7%Z 3%Z; mkWithHash 5%Z 1%Z; mkWithHash 0%Z 4%Z] ∧
      MerkleListIterator.data (Heap.iterator_view σ3 it) =
        [mkWithHash 5%Z 1%Z; mkWithHash 0%Z 4%Z] ∧
      fst <$> Heap.next I σ2 it = Ok 3%Z ∧
      Heap.next I σ3 it = ConstraintViolation
  | ConstraintViolation => False
  end.
Proof.
  vm_compute. split; [done|]. split; [intros [=]|]. repeat split.
Qed.

(** * Further properties of the code *)

(** ** What [withHashes] computes *)

(** X1. [withHashes(data, nextHash, emptyHash)] returns as [hash] the
    chaining function folded over the elements from the right, starting
    from [emptyHash], and as [data] one node per element, in the order of
    the input: node [i] holds element [i] and, as [previousHash], the fold
    over the elements after [i]. *)
Theorem withHashes_spec {T} (nextHash : Field → T → Field) (e0 : Field)
    (array : list T) :
  let commitment := λ xs : list T, foldr (λ x h, nextHash h x) e0 xs in
  hash (withHashes array nextHash e0) = commitment array ∧
  length (data (withHashes array nextHash e0)) = length array ∧
  ∀ i x, array !! i = Some x →
    data (withHashes array nextHash e0) !! i =
      Some {| previousHash := commitment (drop (S i) array); element := x |}.
Proof.
  intros commitment. rename array into xs. induction xs as [|y ys IH].
  - repeat split. intros i x. by rewrite lookup_nil.
  - destruct IH as (IHh & IHl & IHd). rewrite withHashes_cons. simpl. split; [by rewrite IHh|].
    split; [by rewrite IHl|].
    intros [|i] x Hx; simpl in *.
    + injection Hx as ->. by rewrite IHh.
    + by apply IHd.
Qed.

(** ** Pushing and [from] *)

Lemma from_cons {T} (C : Statics T) (x : T) (xs : list T) :
  MerkleList.from C (x :: xs) = MerkleList.push C (MerkleList.from C xs) x.
Proof.
  unfold MerkleList.from, MerkleList.push. by rewrite withHashes_cons.
Qed.

(** X2. Pushing the elements of an array onto the empty list, last
    element first, builds exactly the list that [from(array)] builds: the
    same commitment and the same record. *)
Theorem push_all_is_from {T} (C : Statics T) (array : list T) :
  fold_left (MerkleList.push C) (rev array) (MerkleList.empty C) =
  MerkleList.from C array.
Proof.
  rename array into ys. induction ys as [|x xs IH]; [done|].
  simpl rev. rewrite fold_left_app. simpl. by rewrite IH, from_cons.
Qed.

(** ** What a successful [pop], [popExn] or [next] proves *)

(** X3. Whatever the record of a list holds, a [pop] that succeeds
    removes the first node of the record and, when the commitment was not
    the empty sentinel, returns an element that chains the new commitment
    to the old one: [hash = nextHash(newHash, element)]. When the
    commitment was the sentinel it returns the placeholder and keeps the
    commitment. [pop] fails exactly when the commitment is not the
    sentinel and the witnessed node does not hash to it. *)
Theorem pop_sound {T} (C : Statics T) (l : MerkleListBase T) :
  (∀ v l', MerkleList.pop C l = Ok (v, l') →
     data l' = tail (data l) ∧
     if MerkleList.isEmpty C l
     then v = empty (_innerProvable C) ∧ hash l' = hash l
     else hash l = _nextHash C (hash l') v) ∧
  (MerkleList.pop C l = ConstraintViolation ↔
     MerkleList.isEmpty C l = false ∧
     hash l ≠ _nextHash C (previousHash (MerkleList.popWitness C l).1)
                          (element (MerkleList.popWitness C l).1)).
Proof.
  unfold MerkleList.pop, MerkleList.isEmpty.
  assert (hash (MerkleList.popWitness C l).2 = hash l ∧
          data (MerkleList.popWitness C l).2 = tail (data l)) as [Hh Hd].
  { unfold MerkleList.popWitness. by destruct (data l). }
  destruct (MerkleList.popWitness C l) as [w l1]. simpl in *. rewrite Hh.
  destruct (Field_equals (hash l) (_emptyHash C)) eqn:He.
  - apply Field_equals_true in He. rewrite He, assertEquals_refl. simpl.
    split; [|split; [done | by intros [? _]]].
    intros v l' [= <- <-]. done.
  - unfold assertEquals.
    destruct (Field_equals (hash l) (_nextHash C _ _)) eqn:Ha; simpl.
    + apply Field_equals_true in Ha. split.
      * intros v l' [= <- <-]. done.
      * split; [done | by intros [_ ?]].
    + apply Field_equals_false in Ha. by split.
Qed.

(** X4. [popExn] undoes [push] on every list, with no condition on the
    commitment; on a list whose commitment is not the empty sentinel [pop]
    and [popExn] have the same outcome; and a [popExn] that succeeds
    returns an element that chains the new commitment to the old one. *)
Theorem popExn_relations {T} (C : Statics T) :
  (∀ l v, MerkleList.popExn C (MerkleList.push C l v) = Ok (v, l)) ∧
  (∀ l, MerkleList.isEmpty C l = false →
        MerkleList.pop C l = MerkleList.popExn C l) ∧
  (∀ l v l', MerkleList.popExn C l = Ok (v, l') →
        hash l = _nextHash C (hash l') v ∧ data l' = tail (data l)).
Proof.
  split; [|split].
  - intros [h d] v. unfold MerkleList.popExn, MerkleList.popExn_on. simpl.
    by rewrite assertEquals_refl.
  - intros l He.
    unfold MerkleList.pop, MerkleList.popExn, MerkleList.popExn_on,
      MerkleList.isEmpty in *.
    assert (hash (MerkleList.popWitness C l).2 = hash l) as Hh.
    { unfold MerkleList.popWitness. by destruct (data l). }
    destruct (MerkleList.popWitness C l) as [w l1]. simpl in *.
    by rewrite Hh, He.
  - intros l v l'. unfold MerkleList.popExn, MerkleList.popExn_on.
    assert (hash (MerkleList.popWitness C l).2 = hash l ∧
            data (MerkleList.popWitness C l).2 = tail (data l)) as [Hh Hd].
    { unfold MerkleList.popWitness. by destruct (data l). }
    destruct (MerkleList.popWitness C l) as [w l1]. simpl in *. rewrite Hh.
    unfold assertEquals. destruct (Field_equals _ _) eqn:Ha; simpl; [|done].
    apply Field_equals_true in Ha. by intros [= <- <-].
Qed.

(** X5. Whatever the record of an iterator holds, a [next] that succeeds
    keeps [hash] and [data] and, when the iterator was not at the end,
    returns an element that chains the new [currentHash] to the old one.
    At the end it returns the placeholder and keeps [currentHash]. [next]
    fails exactly when the iterator is not at the end and the witnessed
    node does not hash to [currentHash]. *)
Theorem next_sound {T} (C : Statics T)
    (it : MerkleListIterator.MerkleListIteratorBase T) :
  (∀ v it', MerkleListIterator.next C it = Ok (v, it') →
     MerkleListIterator.hash it' = MerkleListIterator.hash it ∧
     MerkleListIterator.data it' = MerkleListIterator.data it ∧
     if MerkleListIterator.isAtEnd C it
     then v = empty (_innerProvable C) ∧
          MerkleListIterator.currentHash it' = MerkleListIterator.currentHash it
     else MerkleListIterator.currentHash it =
          _nextHash C (MerkleListIterator.currentHash it') v) ∧
  (MerkleListIterator.next C it = ConstraintViolation ↔
     MerkleListIterator.isAtEnd C it = false ∧
     MerkleListIterator.currentHash it ≠
       _nextHash C (previousHash (MerkleListIterator.nextWitness C it))
                   (element (MerkleListIterator.nextWitness C it))).
Proof.
  unfold MerkleListIterator.next, MerkleListIterator.isAtEnd.
  destruct (Field_equals (MerkleListIterator.currentHash it) (_emptyHash C)) eqn:He.
  - apply Field_equals_true in He. rewrite He, assertEquals_refl. simpl.
    split; [|split; [done | by intros [? _]]].
    intros v it' [= <- <-]. done.
  - unfold assertEquals.
    destruct (Field_equals _ (_nextHash C _ _)) eqn:Ha; simpl.
    + apply Field_equals_true in Ha. split.
      * intros v it' [= <- <-]. done.
      * split; [done | by intros [_ ?]].
    + apply Field_equals_false in Ha. by split.
Qed.

(** ** Popping part of a list, or more than it holds *)

Section Prefix.
Context {T : Type} (C : Statics T).

Lemma pop_n_empty (n : nat) :
  MerkleList.pop_n C n (MerkleList.empty C) =
    Ok (replicate n (empty (_innerProvable C)), MerkleList.empty C).
Proof.
  induction n as [|n IH]; [done|].
  cbn [MerkleList.pop_n]. rewrite pop_at_sentinel by done. simpl.
  change {| hash := _emptyHash C; data := [] |} with (MerkleList.empty C).
  by rewrite IH.
Qed.

Lemma pop_n_from (xs : list T) : ∀ n,
  no_sentinel_collision C (data (MerkleList.from C xs)) = true →
  MerkleList.pop_n C n (MerkleList.from C xs) =
    Ok (padded_prefix C n xs, MerkleList.from C (drop n xs)).
Proof.
  unfold padded_prefix. induction xs as [|x xs IH]; intros n Hn.
  - rewrite drop_nil, take_nil, Nat.sub_0_r. apply pop_n_empty.
  - destruct n as [|n]; [done|].
    rewrite from_cons in Hn. simpl in Hn.
    apply andb_true_iff in Hn as [Hx Hn].
    apply negb_true_iff, Field_equals_false in Hx.
    cbn [MerkleList.pop_n]. rewrite from_cons.
    rewrite (pop_head C (MerkleList.push C (MerkleList.from C xs) x)
               (mkWithHash (hash (MerkleList.from C xs)) x)
               (data (MerkleList.from C xs))) by done.
    cbn [mbind result_bind element previousHash].
    change {| hash := hash (MerkleList.from C xs);
              data := data (MerkleList.from C xs) |}
      with (MerkleList.from C xs).
    by rewrite (IH n Hn).
Qed.

(** [n] calls of [next] that succeed keep [hash] and [data], return [n]
    values and move a cursor that was within the record by [n], stopping
    at [data.length]. *)
Lemma next_n_frame (n : nat) : ∀ it vs it',
  MerkleListIterator.next_n C n it = Ok (vs, it') →
  length vs = n ∧
  MerkleListIterator.hash it' = MerkleListIterator.hash it ∧
  MerkleListIterator.data it' = MerkleListIterator.data it ∧
  ((MerkleListIterator.currentIndex it ≤ length (MerkleListIterator.data it))%nat →
   MerkleListIterator.currentIndex it' =
     Nat.min (MerkleListIterator.currentIndex it + n)
             (length (MerkleListIterator.data it))).
Proof.
  induction n as [|n IH]; intros it vs it'.
  - intros [= <- <-]. repeat split. lia.
  - cbn [MerkleListIterator.next_n].
    destruct (MerkleListIterator.next C it) as [[v it1]|] eqn:Hnext; simpl; [|done].
    destruct (MerkleListIterator.next_n C n it1) as [[vs1 it2]|] eqn:Hn; simpl; [|done].
    intros [= <- <-].
    destruct (IH _ _ _ Hn) as (Hlen & Hh & Hd & Hi).
    assert (MerkleListIterator.hash it1 = MerkleListIterator.hash it ∧
            MerkleListIterator.data it1 = MerkleListIterator.data it ∧
            MerkleListIterator.currentIndex it1 =
              Nat.min (MerkleListIterator.currentIndex it + 1)
                      (length (MerkleListIterator.data it))) as (Hh1 & Hd1 & Hi1).
    { unfold MerkleListIterator.next in Hnext.
      destruct (assertEquals _ _); simpl in Hnext; [|done].
      by injection Hnext as _ <-. }
    rewrite Hh, Hd, Hh1, Hd1. rewrite Hd1 in Hi.
    split; [simpl; by rewrite Hlen|]. split; [done|]. split; [done|].
    intros Hle. rewrite Hi, Hi1; lia.
Qed.
End Prefix.

(** X6. When no node built by [from(array)] hashes onto the empty
    sentinel, any number [n] of [pop] calls after [from(array)] succeeds:
    the calls return the first [n] elements of the array in the order of
    the array, then the placeholder for each call past its end, and the
    list they leave is exactly [from] of the rest of the array. *)
Theorem from_pop_n_prefix {T} (C : Statics T) (array : list T) (n : nat) :
  no_sentinel_collision C (data (MerkleList.from C array)) = true →
  MerkleList.pop_n C n (MerkleList.from C array) =
    Ok (take n array ++ replicate (n - length array) (empty (_innerProvable C)),
        MerkleList.from C (drop n array)).
Proof. apply pop_n_from. Qed.

Lemma from_pop_n_prefix_witness :
  MerkleList.pop_n AddOneList 5 (MerkleList.from AddOneList [3; 1; 4]%Z) =
    Ok ([3; 1; 4; 0; 0]%Z, MerkleList.from AddOneList []).
Proof.
  apply (from_pop_n_prefix AddOneList [3; 1; 4]%Z 5). vm_compute. reflexivity.
Defined.

(** X7. When no node built by [from(array)] hashes onto the empty
    sentinel, any number [n] of [next] calls on the iterator
    [MerkleListIterator.from(array)] succeeds and returns the first [n]
    elements of the array in the order of the array, then the placeholder
    for each call past its end. The iterator keeps [hash] and [data], its
    cursor is [min(n, array.length)] and its [currentHash] is the
    commitment of the rest of the array. *)
Theorem from_next_n_prefix {T} (C : Statics T) (array : list T) (n : nat) :
  no_sentinel_collision C (data (MerkleList.from C array)) = true →
  ∃ it',
    MerkleListIterator.next_n C n (MerkleListIterator.from C array) =
      Ok (take n array ++ replicate (n - length array) (empty (_innerProvable C)), it') ∧
    MerkleListIterator.hash it' = hash (MerkleList.from C array) ∧
    MerkleListIterator.data it' = data (MerkleList.from C array) ∧
    MerkleListIterator.currentIndex it' = Nat.min n (length array) ∧
    MerkleListIterator.currentHash it' = hash (MerkleList.from C (drop n array)).
Proof.
  intros Hn.
  assert (at_same_place (MerkleListIterator.from C array) (MerkleList.from C array))
    as Hs by (split; [done | apply drop_0]).
  pose proof (next_n_pop_n_agree C n _ _ Hs) as Hagree.
  rewrite (pop_n_from C array n Hn) in Hagree.
  destruct (MerkleListIterator.next_n C n (MerkleListIterator.from C array))
    as [[vs it']|] eqn:Hnext; simpl in Hagree; [|done].
  destruct Hagree as [-> [Hcur _]].
  destruct (next_n_frame C n _ _ _ Hnext) as (_ & Hh & Hd & Hi).
  exists it'. split; [done|]. split; [done|]. split; [done|].
  split; [|done]. rewrite Hi by (simpl; lia). simpl.
  by rewrite withHashes_length.
Qed.

Lemma from_next_n_prefix_witness :
  ∃ it',
    MerkleListIterator.next_n AddOneList 2
      (MerkleListIterator.from AddOneList [3; 1; 4]%Z) = Ok ([3; 1]%Z, it') ∧
    MerkleListIterator.currentIndex it' = 2%nat ∧
    MerkleListIterator.currentHash it' = 5%Z.
Proof.
  destruct (from_next_n_prefix AddOneList [3; 1; 4]%Z 2)
    as (it' & Hn & _ & _ & Hi & Hc); [by vm_compute|].
  exists it'. split; [exact Hn|]. split; [exact Hi | exact Hc].
Defined.

(** X9. Whatever the record and the chaining function, [n] calls of
    [next] that succeed return [n] values, never change [hash] or [data],
    and move a cursor that was within [[0, data.length]] to
    [min(currentIndex + n, data.length)]: the cursor never moves back and
    never passes the end of the record. *)
Theorem next_n_cursor {T} (C : Statics T) (n : nat)
    (it it' : MerkleListIterator.MerkleListIteratorBase T) (vs : list T) :
  MerkleListIterator.next_n C n it = Ok (vs, it') →
  (MerkleListIterator.currentIndex it ≤ length (MerkleListIterator.data it))%nat →
  length vs = n ∧
  MerkleListIterator.hash it' = MerkleListIterator.hash it ∧
  MerkleListIterator.data it' = MerkleListIterator.data it ∧
  MerkleListIterator.currentIndex it' =
    Nat.min (MerkleListIterator.currentIndex it + n)
            (length (MerkleListIterator.data it)) ∧
  (MerkleListIterator.currentIndex it ≤ MerkleListIterator.currentIndex it'
     ≤ length (MerkleListIterator.data it'))%nat.
Proof.
  intros Hnext Hle.
  destruct (next_n_frame C n _ _ _ Hnext) as (Hlen & Hh & Hd & Hi).
  specialize (Hi Hle). rewrite Hd. repeat split; try done; lia.
Qed.

Lemma next_n_cursor_witness :
  let it := MerkleListIterator.from AddOneList [3; 1; 4]%Z in
  let it' := {| MerkleListIterator.hash := 11%Z;
                MerkleListIterator.data := MerkleListIterator.data it;
                MerkleListIterator.currentHash := 0%Z;
                MerkleListIterator.currentIndex := 3 |} in
  MerkleListIterator.currentIndex it' =
    Nat.min (MerkleListIterator.currentIndex it + 4)
            (length (MerkleListIterator.data it)).
Proof.
  intros it it'.
  refine (proj1 (proj2 (proj2 (proj2
    (next_n_cursor AddOneList 4 it it' [3; 1; 4; 0]%Z _ _))))).
  - vm_compute. reflexivity.
  - vm_compute. lia.
Defined.

Lemma iterator_clone_isolated_witness :
  let s1 := Heap.from AddOneList Heap.empty_store [3; 1; 4]%Z in
  let s2 := Heap.startIterating s1.1 s1.2 in
  Heap.IteratorObj.data (Heap.iterator_clone s2.1 s2.2).2 ≠ Heap.IteratorObj.data s2.2.
Proof.
  intros s1 s2.
  refine (proj1 (iterator_clone_isolated AddOneList s2.1 s2.2 _ _));
    vm_compute; by eexists.
Defined.

Lemma startIterating_next_n_pop_n_witness :
  fst <$> MerkleListIterator.next_n (MerkleList.iteratorType AddOneList) 4
            (MerkleList.startIterating (MerkleList.from AddOneList [3; 1; 4]%Z)) =
  fst <$> MerkleList.pop_n AddOneList 4
            (MerkleList.clone (MerkleList.from AddOneList [3; 1; 4]%Z)).
Proof.
  apply (startIterating_next_n_pop_n AddOneList
           (MerkleList.from AddOneList [3; 1; 4]%Z) 4).
  reflexivity.
Defined.

(** ** The position of an iterator *)

Section PositionFacts.
Context {T : Type} (C : Statics T).

Lemma linked_drop (d : list (WithHash T)) : ∀ i,
  linked C d → linked C (drop i d).
Proof.
  induction d as [|node d IH]; intros [|i] Hl; try done.
  simpl. apply IH. by destruct Hl.
Qed.

Lemma positioned_start (l : MerkleListBase T) :
  chained C l → positioned C (MerkleList.startIterating l).
Proof.
  intros [Hh Hl]. split; [simpl; lia|]. by repeat split.
Qed.

Lemma positioned_jumpToEndIf (b : bool) it :
  positioned C it → positioned C (MerkleListIterator.jumpToEndIf C b it).
Proof.
  intros (Hle & Hcur & Hh & Hl). destruct b; [|done].
  split; [done|]. split; [|done]. simpl. by rewrite drop_all.
Qed.

Lemma positioned_next it :
  sentinel_free C → positioned C it →
  ∃ it',
    MerkleListIterator.next C it =
      Ok (default (empty (_innerProvable C))
            (element <$> MerkleListIterator.data it !! MerkleListIterator.currentIndex it),
          it') ∧
    positioned C it'.
Proof.
  intros Hs (Hle & Hcur & Hh & Hl).
  pose proof (linked_drop _ (MerkleListIterator.currentIndex it) Hl) as Hl'.
  destruct (drop (MerkleListIterator.currentIndex it) (MerkleListIterator.data it))
    as [|node d'] eqn:Hd.
  - destruct (drop_nil_inv _ _ Hd) as [Hlook Hd'].
    rewrite (next_at_end_step C it) by (by apply Field_equals_true).
    rewrite Hlook. eexists. split; [done|].
    split; [simpl; lia|]. split; [simpl; by rewrite Hd'|]. done.
  - destruct (drop_cons_inv _ _ _ _ Hd) as [Hlook Hd'].
    destruct Hl' as [Hp _]. simpl in Hcur.
    assert (MerkleListIterator.isAtEnd C it = false) as He.
    { apply Field_equals_false. rewrite Hcur. apply Hs. }
    unfold MerkleListIterator.next, MerkleListIterator.nextWitness.
    rewrite He, Hlook. simpl. rewrite Hcur, Hp, assertEquals_refl. simpl.
    eexists. split; [done|].
    split; [simpl; lia|]. split; [simpl; by rewrite Hd'|]. done.
Qed.
End PositionFacts.

(** X8. The position the source documents for an iterator, [currentHash]
    being the commitment of [[data[currentIndex], ..., data[length-1]]]
    over a record that chains to [hash], holds after [startIterating] on a
    list that keeps the chain invariant and after [from(array)]; it is
    kept by [jumpToEnd], [jumpToEndIf] and [clone]; under it
    [currentHash] is [hash] at index 0 and the empty sentinel at index
    [data.length]. When the sentinel is outside the image of the chaining
    function, [next] keeps it too, never fails, and returns the element of
    [data[currentIndex]], or the placeholder at the end. *)
Theorem positioned_kept {T} (C : Statics T) :
  (∀ l, chained C l → positioned C (MerkleList.startIterating l)) ∧
  (∀ array, positioned C (MerkleListIterator.from C array)) ∧
  (∀ it, positioned C it →
     positioned C (MerkleListIterator.jumpToEnd C it) ∧
     (∀ b, positioned C (MerkleListIterator.jumpToEndIf C b it)) ∧
     positioned C (MerkleListIterator.clone it) ∧
     (MerkleListIterator.currentIndex it = 0%nat →
      MerkleListIterator.currentHash it = MerkleListIterator.hash it) ∧
     (MerkleListIterator.currentIndex it = length (MerkleListIterator.data it) →
      MerkleListIterator.currentHash it = _emptyHash C)) ∧
  (sentinel_free C →
   ∀ it, positioned C it →
     ∃ it',
       MerkleListIterator.next C it =
         Ok (default (empty (_innerProvable C))
               (element <$>
                  MerkleListIterator.data it !! MerkleListIterator.currentIndex it),
             it') ∧
       positioned C it').
Proof.
  split; [apply positioned_start|]. split.
  { intros array. apply (positioned_start C (MerkleList.from C array)), chained_from. }
  split; [|intros Hs it; by apply positioned_next].
  intros it Hp. split; [apply (positioned_jumpToEndIf C true it Hp)|].
  split; [intros b; by apply positioned_jumpToEndIf|]. split; [done|].
  destruct Hp as (Hle & Hcur & Hh & Hl). split.
  - intros Hi. by rewrite Hcur, Hi, drop_0.
  - intros Hi. by rewrite Hcur, Hi, drop_all.
Qed.

Lemma positioned_kept_witness :
  ∃ it',
    MerkleListIterator.next NonzeroList
      (MerkleListIterator.from NonzeroList [3; 1; 4]%Z) = Ok (3%Z, it') ∧
    positioned NonzeroList it'.
Proof.
  exact (proj2 (proj2 (proj2 (positioned_kept NonzeroList)))
           NonzeroList_sentinel_free
           (MerkleListIterator.from NonzeroList [3; 1; 4]%Z)
           (proj1 (proj2 (positioned_kept NonzeroList)) [3; 1; 4]%Z)).
Defined.

(** ** Jumping to the end *)

(** X10. [jumpToEndIf(false)] leaves the iterator as it is and
    [jumpToEndIf(true)] does what [jumpToEnd] does. After [jumpToEnd] the
    iterator is at the end with its cursor at [data.length], and [next]
    returns the placeholder and leaves it in that same state.
    [assertAtStart] passes on the iterator that [startIterating] returns;
    after [jumpToEnd] it passes exactly when [hash] is the empty
    sentinel. *)
Theorem jumpToEnd_facts {T} (C : Statics T)
    (it : MerkleListIterator.MerkleListIteratorBase T) :
  MerkleListIterator.jumpToEndIf C false it = it ∧
  MerkleListIterator.jumpToEndIf C true it = MerkleListIterator.jumpToEnd C it ∧
  MerkleListIterator.isAtEnd C (MerkleListIterator.jumpToEnd C it) = true ∧
  MerkleListIterator.currentIndex (MerkleListIterator.jumpToEnd C it) =
    length (MerkleListIterator.data it) ∧
  MerkleListIterator.next C (MerkleListIterator.jumpToEnd C it) =
    Ok (empty (_innerProvable C), MerkleListIterator.jumpToEnd C it) ∧
  (∀ l : MerkleListBase T,
     MerkleListIterator.assertAtStart (MerkleList.startIterating l) = Ok ()) ∧
  (MerkleListIterator.assertAtStart (MerkleListIterator.jumpToEnd C it) = Ok () ↔
     MerkleListIterator.hash it = _emptyHash C).
Proof.
  split; [by destruct it|]. split; [done|].
  assert (MerkleListIterator.isAtEnd C (MerkleListIterator.jumpToEnd C it) = true)
    as He by apply Field_equals_refl.
  split; [done|]. split; [done|]. split.
  { rewrite (next_at_end_step C _ He). unfold MerkleListIterator.jumpToEnd. simpl.
    do 3 f_equal. lia. }
  split; [intros l; apply assertEquals_refl|].
  unfold MerkleListIterator.assertAtStart, assertEquals. simpl.
  destruct (Field_equals (_emptyHash C) (MerkleListIterator.hash it)) eqn:Ha.
  - apply Field_equals_true in Ha. done.
  - apply Field_equals_false in Ha. split; [done|]. intros Heq. by rewrite Heq in Ha.
Qed.

(** ** The chain invariant under the operations *)

(** X14. The chain invariant holds for [empty()] and [from(array)]. On a
    list that keeps it, [push], [pushIf] and [clone] keep it, [pop] never
    fails, and a [popExn] that succeeds keeps it. When the sentinel is
    outside the image of the chaining function, [pop] and [popIf(true)]
    keep it, and [popIf(false)] on a list with a non-empty record leaves
    the very list it was called on. *)
Theorem chain_invariant_kept {T} (C : Statics T) :
  chained C (MerkleList.empty C) ∧
  (∀ array, chained C (MerkleList.from C array)) ∧
  (∀ l, chained C l →
     (∀ v, chained C (MerkleList.push C l v)) ∧
     (∀ b v, chained C (MerkleList.pushIf C l b v)) ∧
     chained C (MerkleList.clone l) ∧
     succeeds (MerkleList.pop C l) = true ∧
     (∀ v l', MerkleList.popExn C l = Ok (v, l') → chained C l') ∧
     (sentinel_free C →
        (∀ v l', MerkleList.pop C l = Ok (v, l') → chained C l') ∧
        (∀ v l', MerkleList.popIf C l true = Ok (v, l') → chained C l') ∧
        (data l ≠ [] → ∃ v, MerkleList.popIf C l false = Ok (v, l)))).
Proof.
  split; [apply chained_empty|]. split; [apply chained_from|].
  intros l Hc.
  split; [intros v; by apply chained_push|].
  split; [intros b v; by apply chained_pushIf|].
  split; [by apply chained_clone|].
  split; [by apply chained_pop_succeeds|].
  split; [intros v l'; by apply chained_popExn|].
  intros Hs.
  split; [intros v l'; by apply chained_pop|].
  split; [intros v l'; by apply chained_popIf_true|].
  intros Hd. apply (chained_popIf_false_head C l Hc).
  destruct Hc as [Hh _]. rewrite Hh. by apply sentinel_free_chain_nonempty.
Qed.

Lemma chain_invariant_kept_witness :
  ∃ v, MerkleList.popIf NonzeroList (MerkleList.from NonzeroList [3; 1; 4]%Z) false =
         Ok (v, MerkleList.from NonzeroList [3; 1; 4]%Z).
Proof.
  destruct (chain_invariant_kept NonzeroList) as (_ & _ & Hkept).
  destruct (Hkept (MerkleList.from NonzeroList [3; 1; 4]%Z)
              (chained_from NonzeroList [3; 1; 4]%Z))
    as (_ & _ & _ & _ & _ & Hfree).
  destruct (Hfree NonzeroList_sentinel_free) as (_ & _ & HpopIf).
  apply HpopIf. discriminate.
Defined.

(** ** Conditional operations and their unconditional counterparts *)

(** X15. On every list state, [pushIf(false, v)] changes nothing,
    [pushIf(true, v)] does what [push(v)] does, and [popIf(true)] has the
    outcome of [pop()]. On a list whose first node hashes to its
    commitment, the commitment not being the empty sentinel,
    [popIf(false)] returns the element of that node and leaves the list as
    it was. *)
Theorem conditional_operations {T} (C : Statics T) (l : MerkleListBase T) :
  (∀ v, MerkleList.pushIf C l false v = l) ∧
  (∀ v, MerkleList.pushIf C l true v = MerkleList.push C l v) ∧
  MerkleList.popIf C l true = MerkleList.pop C l ∧
  (∀ node d,
     data l = node :: d →
     hash l = _nextHash C (previousHash node) (element node) →
     hash l ≠ _emptyHash C →
     MerkleList.popIf C l false = Ok (element node, l)).
Proof.
  split; [intros v; apply pushIf_false|].
  split; [intros v; apply pushIf_true|].
  split; [apply popIf_true|]. apply popIf_false_head.
Qed.

Lemma conditional_operations_witness :
  MerkleList.popIf AddOneList (MerkleList.from AddOneList [3; 1; 4]%Z) false =
    Ok (3%Z, MerkleList.from AddOneList [3; 1; 4]%Z).
Proof.
  refine (proj2 (proj2 (proj2
    (conditional_operations AddOneList (MerkleList.from AddOneList [3; 1; 4]%Z))))
    (mkWithHash 7%Z 3%Z) [mkWithHash 5%Z 1%Z; mkWithHash 0%Z 4%Z] _ _ _);
    vm_compute; (reflexivity || discriminate).
Defined.

(** ** Bytes of a [Bool] *)

(** X16. [readBytes] reads back what [toBytes] wrote: on a byte array
    that holds [toBytes(b)] at [offset], whatever comes before and after,
    it returns [b] and the offset moved by [sizeInBytes() = 1], the length
    of [toBytes(b)]. An offset outside the array is not rejected:
    [readBytes] then returns false and [offset + 1]. Any non-zero byte
    reads as true. *)
Theorem BoolBinable_roundtrip (b : bool) (before after : list Z) :
  BoolBinable_readBytes (before ++ BoolBinable_toBytes b ++ after) (length before) =
    (b, (length before + Bool_sizeInBytes)%nat) ∧
  length (BoolBinable_toBytes b) = Bool_sizeInBytes ∧
  (∀ bytes offset, (length bytes ≤ offset)%nat →
     BoolBinable_readBytes bytes offset = (false, (offset + 1)%nat)) ∧
  (∀ bytes offset n, bytes !! offset = Some n → n ≠ 0%Z →
     BoolBinable_readBytes bytes offset = (true, (offset + 1)%nat)).
Proof.
  unfold BoolBinable_readBytes, Bool_sizeInBytes. split; [|split; [done|split]].
  - rewrite lookup_app_r by done. rewrite Nat.sub_diag. by destruct b.
  - intros bytes offset Hle. by rewrite (lookup_ge_None_2 bytes offset Hle).
  - intros bytes offset n -> Hn. simpl.
    by rewrite (proj2 (Z.eqb_neq n 0) Hn).
Qed.

(** ** Arrays of field elements and of big integers *)

(** X17. Converting big integers to field elements and back returns each
    integer reduced modulo the field order, a value in [[0, ORDER)]: the
    round trip is the identity exactly on arrays of integers in that
    range, and a negative integer comes back as its residue. Converting
    canonical field elements to big integers and back returns the same
    elements. Both conversions keep the length and the order. *)
Theorem bigint_field_arrays_roundtrip (ns : list Z) (fs : list Field) :
  fieldArrayToBigIntArray (bigintArrayToFieldArray ns) =
    map (λ n, (n mod Field_ORDER)%Z) ns ∧
  Forall (λ n, (0 ≤ n < Field_ORDER)%Z)
    (fieldArrayToBigIntArray (bigintArrayToFieldArray ns)) ∧
  (fieldArrayToBigIntArray (bigintArrayToFieldArray ns) = ns ↔
     Forall (λ n, (0 ≤ n < Field_ORDER)%Z) ns) ∧
  (Forall (λ f, (0 ≤ f < Field_ORDER)%Z) fs →
     bigintArrayToFieldArray (fieldArrayToBigIntArray fs) = fs) ∧
  length (bigintArrayToFieldArray ns) = length ns ∧
  length (fieldArrayToBigIntArray fs) = length fs.
Proof.
  assert (0 < Field_ORDER)%Z as Hpos by done.
  assert (fieldArrayToBigIntArray (bigintArrayToFieldArray ns) =
          map (λ n, (n mod Field_ORDER)%Z) ns) as Hrt.
  { unfold fieldArrayToBigIntArray, bigintArrayToFieldArray. by rewrite map_map. }
  rewrite Hrt. split; [done|]. split.
  { apply Forall_map, Forall_forall. intros n _. simpl. by apply Z.mod_pos_bound. }
  split; [|split; [|split]].
  - clear Hrt. induction ns as [|n ns IH]; [done|]. simpl. split.
    + intros [= Hn Hns]. constructor; [|by apply IH].
      rewrite <- Hn. by apply Z.mod_pos_bound.
    + intros Hall. apply Forall_cons in Hall as [Hn Hns].
      rewrite Z.mod_small by done. f_equal. by apply IH.
  - intros Hall. unfold fieldArrayToBigIntArray, bigintArrayToFieldArray.
    rewrite map_map. induction Hall as [|f fs' Hf Hfs IH]; [done|].
    simpl. unfold mkField, Field_toBigInt at 1. rewrite Z.mod_small by done.
    by f_equal.
  - apply length_map.
  - apply length_map.
Qed.

Lemma bigint_field_arrays_roundtrip_witness :
  bigintArrayToFieldArray (fieldArrayToBigIntArray [3; 1; 4]%Z) = [3; 1; 4]%Z.
Proof.
  refine (proj1 (proj2 (proj2 (proj2
    (bigint_field_arrays_roundtrip [] [3; 1; 4]%Z)))) _).
  repeat constructor; done.
Defined.

(** ** The number that [commit] returns *)

Section HexFacts.
Import HexString.

Lemma to_N_app (s1 s2 : string) : ∀ base,
  Raw.to_N (s1 ++ s2)%string base = Raw.to_N s2 (Raw.to_N s1 base).
Proof. induction s1 as [|ch s1 IH]; intros base; [done|]. simpl. apply IH. Qed.

Lemma all_hex_digits_app (s1 s2 : string) :
  Pedersen.all_hex_digits (s1 ++ s2)%string =
  Pedersen.all_hex_digits s1 && Pedersen.all_hex_digits s2.
Proof.
  induction s1 as [|ch s1 IH]; [done|]. simpl.
  by destruct (ascii_to_digit ch).
Qed.

Lemma length_app_string (s1 s2 : string) :
  String.length (s1 ++ s2)%string = (String.length s1 + String.length s2)%nat.
Proof. induction s1 as [|ch s1 IH]; [done|]. simpl. by rewrite IH. Qed.

Lemma repeat_zero_spec (k : nat) :
  (∀ base, Raw.to_N (Pedersen.repeat_char "0"%char k) base =
           (base * 16 ^ N.of_nat k)%N) ∧
  String.length (Pedersen.repeat_char "0"%char k) = k ∧
  Pedersen.all_hex_digits (Pedersen.repeat_char "0"%char k) = true.
Proof.
  induction k as [|k (IHv & IHl & IHd)].
  - split; [intros base; simpl; lia | done].
  - split; [|split; [simpl; by rewrite IHl | done]].
    intros base. cbn [Pedersen.repeat_char Raw.to_N].
    rewrite IHv, Nat2N.inj_succ, N.pow_succ_r'.
    change (ascii_to_digit "0") with (Some 0%N). cbv beta iota.
    generalize (16 ^ N.of_nat k)%N. intros X. lia.
Qed.

(** The digits that [Raw.of_pos] writes in front of [rest]: what they
    add to a number being read, how many they are, and that they are
    digits and as few as the number needs. *)
Lemma hex_of_pos_spec (n : nat) : ∀ p, (Pos.size_nat p ≤ n)%nat →
  ∀ rest base,
    Raw.to_N (Raw.of_pos p rest) base =
      Raw.to_N rest (base * 16 ^ N.of_nat (Pedersen.hexlen p) + Npos p)%N ∧
    String.length (Raw.of_pos p rest) = (Pedersen.hexlen p + String.length rest)%nat ∧
    Pedersen.all_hex_digits (Raw.of_pos p rest) = Pedersen.all_hex_digits rest ∧
    (16 ^ N.of_nat (Pedersen.hexlen p) ≤ 16 * Npos p)%N.
Proof.
  induction n as [|n IH]; intros p Hsize.
  { destruct p; simpl in Hsize; lia. }
  do 4 (try destruct p as [p|p|]);
    try (assert (Pos.size_nat p ≤ n)%nat as Hp by (simpl in Hsize; lia));
    intros rest base;
    try match goal with
    | Hp : (Pos.size_nat ?p' ≤ n)%nat |- context [Pedersen.hexlen ?q] =>
        assert (Pedersen.hexlen q = S (Pedersen.hexlen p')) as Hlen
          by (unfold Pedersen.hexlen at 1; cbn [Raw.of_pos];
              rewrite (proj1 (proj2 (IH p' Hp _ 0%N))); simpl; lia);
        rewrite Hlen, Nat2N.inj_succ, N.pow_succ_r';
        cbn [Raw.of_pos];
        match goal with
        | |- context [Raw.of_pos p' ?r] =>
            destruct (IH p' Hp r base) as (Hv & Hl & Hd & Hb)
        end;
        rewrite Hv, Hl, Hd; revert Hb;
        generalize (16 ^ N.of_nat (Pedersen.hexlen p'))%N; intros X Hb
    end;
    try (change (Pedersen.hexlen _) with 1%nat; change (16 ^ N.of_nat 1)%N with 16%N);
    cbn [Raw.of_pos Raw.to_N String.length Pedersen.all_hex_digits];
    repeat match goal with
    | |- context [ascii_to_digit ?c] =>
        let v := eval vm_compute in (ascii_to_digit c) in
        change (ascii_to_digit c) with v
    end;
    cbv beta iota;
    (split; [f_equal; lia | split; [lia | split; [done | lia]]]).
Qed.

Lemma toString16_spec (x : Z) :
  (0 ≤ x < 16 ^ 64)%Z →
  ∃ k, (k ≤ 64)%nat ∧
    String.length (Pedersen.toString16 x) = k ∧
    Pedersen.all_hex_digits (Pedersen.toString16 x) = true ∧
    ∀ base, Raw.to_N (Pedersen.toString16 x) base =
            (base * 16 ^ N.of_nat k + Z.to_N x)%N.
Proof.
  intros [Hlo Hhi]. destruct x as [|p|p]; [| |lia].
  - exists 1%nat. split; [lia|]. split; [done|]. split; [done|].
    intros base. simpl. lia.
  - destruct (hex_of_pos_spec (Pos.size_nat p) p (le_n _) "" 0%N)
      as (_ & Hl & Hd & Hb).
    exists (Pedersen.hexlen p). split; [|split; [|split]].
    + destruct (decide (Pedersen.hexlen p ≤ 64)%nat) as [|Hgt]; [done|].
      exfalso.
      assert (16 ^ 65 ≤ 16 ^ N.of_nat (Pedersen.hexlen p))%N as Hpow
        by (apply N.pow_le_mono_r; lia).
      assert (N.pos p < 16 ^ 64)%N as Hp.
      { change (16 ^ 64)%N with (Z.to_N (16 ^ 64)). lia. }
      change (16 ^ 65)%N with (16 * 16 ^ 64)%N in Hpow. lia.
    + simpl. rewrite Hl. simpl. lia.
    + simpl. by rewrite Hd.
    + intros base. simpl.
      by rewrite (proj1 (hex_of_pos_spec (Pos.size_nat p) p (le_n _) "" base)).
Qed.

Lemma padStart_spec (x : Z) :
  (0 ≤ x < 16 ^ 64)%Z →
  String.length (Pedersen.padStart (Pedersen.toString16 x) 64 "0") = 64%nat ∧
  Pedersen.all_hex_digits (Pedersen.padStart (Pedersen.toString16 x) 64 "0") = true ∧
  ∀ base, Raw.to_N (Pedersen.padStart (Pedersen.toString16 x) 64 "0") base =
          (base * 16 ^ 64 + Z.to_N x)%N.
Proof.
  intros Hx. destruct (toString16_spec x Hx) as (k & Hk & Hl & Hd & Hv).
  unfold Pedersen.padStart. rewrite Hl.
  destruct (repeat_zero_spec (64 - k)) as (Zv & Zl & Zd).
  split; [rewrite length_app_string, Zl, Hl; lia|].
  split; [by rewrite all_hex_digits_app, Zd, Hd|].
  intros base. rewrite to_N_app, Zv, Hv.
  rewrite <- N.mul_assoc, <- N.pow_add_r.
  replace (N.of_nat (64 - k) + N.of_nat k)%N with 64%N by lia. done.
Qed.

Lemma encoding_injective (x1 y1 x2 y2 : Z) :
  (0 ≤ x1 < 16 ^ 64)%Z → (0 ≤ y1 < 16 ^ 64)%Z →
  (0 ≤ x2 < 16 ^ 64)%Z → (0 ≤ y2 < 16 ^ 64)%Z →
  Pedersen.encoding x1 y1 = Pedersen.encoding x2 y2 → x1 = x2 ∧ y1 = y2.
Proof.
  unfold Pedersen.encoding. generalize (16 ^ 64)%Z (16 ^ 128)%Z.
  intros K K2 Hx1 Hy1 Hx2 Hy2 Heq.
  assert (x1 = x2) as ->.
  { destruct (Z.lt_trichotomy x1 x2) as [Hlt|[Heq'|Hgt]]; [|done|].
    - pose proof (Z.mul_le_mono_nonneg_r 1 (x2 - x1) K) as Hm. lia.
    - pose proof (Z.mul_le_mono_nonneg_r 1 (x1 - x2) K) as Hm. lia. }
  split; [done | lia].
Qed.
End HexFacts.

Section CommitFacts.
Variable Pallas_add : Pedersen.GroupAffine → Pedersen.GroupAffine → Pedersen.GroupAffine.
Variable Pallas_scale : Pedersen.GroupAffine → Z → Pedersen.GroupAffine.
Variables G H : Pedersen.GroupAffine.

Lemma BigInt_affineToHex (P : Pedersen.GroupAffine) :
  (0 ≤ Pedersen.x P < 16 ^ 64)%Z → (0 ≤ Pedersen.y P < 16 ^ 64)%Z →
  String.length (Pedersen.affineToHex P) = 131%nat ∧
  Pedersen.BigInt (Pedersen.affineToHex P) =
    Pedersen.Value (Pedersen.encoding (Pedersen.x P) (Pedersen.y P)).
Proof.
  intros Hx Hy.
  destruct (padStart_spec _ Hx) as (Xl & Xd & Xv).
  destruct (padStart_spec _ Hy) as (Yl & Yd & Yv).
  unfold Pedersen.affineToHex.
  set (X := Pedersen.padStart (Pedersen.toString16 (Pedersen.x P)) 64 "0") in *.
  set (Y := Pedersen.padStart (Pedersen.toString16 (Pedersen.y P)) 64 "0") in *.
  clearbody X Y.
  change ("0x4" ++ X ++ Y)%string
    with (String "0" (String "x" (String "4" (X ++ Y)%string))).
  split.
  { cbn [String.length]. rewrite length_app_string, Xl, Yl. done. }
  unfold Pedersen.BigInt.
  assert (Pedersen.all_hex_digits (String "4" (X ++ Y)) = true) as ->.
  { change (Pedersen.all_hex_digits (String "4" (X ++ Y)))
      with (Pedersen.all_hex_digits (X ++ Y)%string).
    by rewrite all_hex_digits_app, Xd, Yd. }
  f_equal.
  change (HexString.Raw.to_N (String "4" (X ++ Y)) 0)
    with (HexString.Raw.to_N (X ++ Y)%string 4%N).
  rewrite to_N_app, Xv, Yv. unfold Pedersen.encoding.
  change (16 ^ 128)%Z with (16 ^ 64 * 16 ^ 64)%Z.
  rewrite N2Z.inj_add, N2Z.inj_mul, N2Z.inj_add, N2Z.inj_mul, !Z2N.id by lia.
  change (Z.of_N (16 ^ 64)) with (16 ^ 64)%Z. change (Z.of_N 4) with 4%Z.
  generalize (16 ^ 64)%Z. intros K. lia.
Qed.

End CommitFacts.

(** X18. When the coordinates of the point
    [Pallas.add(Pallas.scale(G, x), Pallas.scale(H, r))] are in
    [[0, 16^64)], whatever the curve operations: [affineToHex] writes 131
    characters, and [commit(x, r)] is the number
    [4 * 16^128 + px * 16^64 + py], the digit 4 followed by both
    coordinates on 64 hexadecimal digits each. [verifyCommitment] returns
    true exactly for that number; two points in range have the same
    commitment only if they have the same coordinates. *)
Theorem commit_encoding
    (Pallas_add : Pedersen.GroupAffine → Pedersen.GroupAffine → Pedersen.GroupAffine)
    (Pallas_scale : Pedersen.GroupAffine → Z → Pedersen.GroupAffine)
    (G H : Pedersen.GroupAffine) (x r : Z) :
  let P := Pedersen.commitPoint Pallas_add Pallas_scale G H x r in
  (0 ≤ Pedersen.x P < 16 ^ 64)%Z → (0 ≤ Pedersen.y P < 16 ^ 64)%Z →
  String.length (Pedersen.affineToHex P) = 131%nat ∧
  Pedersen.commit Pallas_add Pallas_scale G H x r =
    Pedersen.Value (Pedersen.encoding (Pedersen.x P) (Pedersen.y P)) ∧
  (∀ c, Pedersen.verifyCommitment Pallas_add Pallas_scale G H x r c =
          Pedersen.Value true ↔
        c = Pedersen.encoding (Pedersen.x P) (Pedersen.y P)) ∧
  (∀ x' r',
     let Q := Pedersen.commitPoint Pallas_add Pallas_scale G H x' r' in
     (0 ≤ Pedersen.x Q < 16 ^ 64)%Z → (0 ≤ Pedersen.y Q < 16 ^ 64)%Z →
     (Pedersen.commit Pallas_add Pallas_scale G H x' r' =
        Pedersen.commit Pallas_add Pallas_scale G H x r ↔
      Pedersen.x Q = Pedersen.x P ∧ Pedersen.y Q = Pedersen.y P)).
Proof.
  intros P Hx Hy.
  destruct (BigInt_affineToHex P Hx Hy) as [Hlen Hval].
  assert (Pedersen.commit Pallas_add Pallas_scale G H x r =
          Pedersen.Value (Pedersen.encoding (Pedersen.x P) (Pedersen.y P)))
    as Hcommit by exact Hval.
  split; [done|]. split; [done|]. split.
  - intros c. unfold Pedersen.verifyCommitment. rewrite Hcommit. split.
    + intros [= Heq]. by apply Z.eqb_eq.
    + intros ->. by rewrite Z.eqb_refl.
  - intros x' r' Q HQx HQy. rewrite Hcommit.
    assert (Pedersen.commit Pallas_add Pallas_scale G H x' r' =
            Pedersen.Value (Pedersen.encoding (Pedersen.x Q) (Pedersen.y Q)))
      as -> by exact (proj2 (BigInt_affineToHex Q HQx HQy)).
    split.
    + intros [= Heq]. by apply encoding_injective.
    + intros [-> ->]. done.
Qed.

Lemma commit_encoding_witness :
  let add := λ p q, Pedersen.mkAffine (Pedersen.x p + Pedersen.x q)
                      (Pedersen.y p + Pedersen.y q) false in
  let scale := λ p n, Pedersen.mkAffine (Pedersen.x p * n) (Pedersen.y p * n) false in
  Pedersen.commit add scale (Pedersen.mkAffine 1 2 false) (Pedersen.mkAffine 3 4 false)
    5 7 = Pedersen.Value (Pedersen.encoding 26 38).
Proof.
  intros add scale.
  refine (proj1 (proj2 (commit_encoding add scale
    (Pedersen.mkAffine 1 2 false) (Pedersen.mkAffine 3 4 false) 5 7 _ _)));
    vm_compute; (split; [discriminate | reflexivity]).
Defined.
